(** * KoG2P: Korean grapheme-to-phone conversion (g2p.py)

    A shallow embedding of [g2p.py]: the syllable decomposition and the
    phone stream builder ([graph2phone]), the rule engine ([phone2prono]),
    the boundary annotation ([add_phone_boundary]) and the convergence
    driver ([graph2prono], [run_g2p]), with the properties of the design
    document stated and settled on them.

    Conventions of the embedding.
    - A Python [str] is a [list ascii]; every string the program builds
      by itself is made of ASCII literals.  The grapheme input is the list
      of its code points ([ord] of each character, lines 213-215), in [Z].
    - A Python exception is a value [Raise e] of the type [result].
    - [re.sub] is a function of Python's library, not of this program.
      Each call with a pattern fixed in the source is embedded as the
      function that this pattern denotes; the calls whose pattern comes
      from the rule table go through a parameter [re_sub] of the section
      [Driver]. *)

From Stdlib Require Import ZArith List Bool Ascii String Lia Arith.
Import ListNotations.

Local Open Scope Z_scope.

(** ** Strings, exceptions *)

Definition str := list ascii.

Definition lit (s : string) : str := list_ascii_of_string s.

Inductive exn : Type :=
| IndexError
| UnboundLocalError
| ReError.

Inductive result (A : Type) : Type :=
| Ok (a : A)
| Raise (e : exn).

Arguments Ok {A} a.
Arguments Raise {A} e.

Definition bind {A B : Type} (r : result A) (k : A -> result B) : result B :=
  match r with
  | Ok a => k a
  | Raise e => Raise e
  end.

Notation "x <- e1 ;; e2" := (bind e1 (fun x => e2))
  (at level 61, e1 at next level, right associativity).

(** [l[i]] of Python: a negative index counts from the end, and an index
    outside [-len, len) raises [IndexError]. *)
Definition py_index {A : Type} (l : list A) (i : Z) : result A :=
  let n := Z.of_nat (List.length l) in
  let j := if i <? 0 then n + i else i in
  if (j <? 0) || (n <=? j) then Raise IndexError
  else match nth_error l (Z.to_nat j) with
       | Some a => Ok a
       | None => Raise IndexError
       end.

(** ** Character classification (lines 184-202) *)

Definition is_hangul (charint : Z) : bool :=
  let hangul_init := 44032 in
  let hangul_fin := 55203 in
  (hangul_init <=? charint) && (charint <=? hangul_fin).

(**  1: whitespace, 0: hangul, -1: non-hangul *)
Definition char_type (v : Z) : Z :=
  if v =? 32 then 1
  else if is_hangul v then 0
  else -1.

Definition check_char_type (var_list : list Z) : list Z :=
  map char_type var_list.

(** ** The romanization tables (lines 219-292) *)

Definition ONS : list str :=
  map lit [ "k0"; "kk"; "nn"; "t0"; "tt"; "rr"; "mm"; "p0"; "pp"; "s0";
            "ss"; "oh"; "c0"; "cc"; "ch"; "kh"; "th"; "ph"; "h0" ]%string.

Definition NUC : list str :=
  map lit [ "aa"; "qq"; "ya"; "yq"; "vv"; "ee"; "yv"; "ye"; "oo"; "wa";
            "wq"; "wo"; "yo"; "uu"; "wv"; "we"; "wi"; "yu"; "xx"; "xi";
            "ii" ]%string.

Definition COD : list str :=
  map lit [ ""; "kf"; "kk"; "ks"; "nf"; "nc"; "nh"; "tf"; "ll"; "lk";
            "lm"; "lb"; "ls"; "lt"; "lp"; "lh"; "mf"; "pf"; "ps"; "s0";
            "ss"; "oh"; "c0"; "ch"; "kh"; "th"; "ph"; "h0" ]%string.

(** ** Syllable decomposition (lines 299-312)

    [math.floor(df / 588)] divides in floating point and rounds down; on
    the integers the program reaches here (at most a few thousand) the
    quotient is exact enough for the floor to be the integer quotient,
    which is [Z.div].  Python's [%] with a positive modulus is [Z.modulo]. *)

Definition base : Z := 44032.

Definition iONS (c : Z) : Z := (c - base) / 588 + 1.
Definition iNUC (c : Z) : Z := ((c - base) mod 588) / 28 + 1.
Definition iCOD (c : Z) : Z := ((c - base) mod 588) mod 28 + 1.

(** The triple (onset, nucleus, coda) that lines 305-311 read from the
    tables. *)
Definition decompose (c : Z) : result (str * str * str) :=
  o <- py_index ONS (iONS c - 1) ;;
  n <- py_index NUC (iNUC c - 1) ;;
  d <- py_index COD (iCOD c - 1) ;;
  Ok (o, n, d).

(** [tmp = s1 + s2 + s3] of line 312. *)
Definition syllable (c : Z) : result str :=
  t <- decompose c ;;
  let '(o, n, d) := t in
  let s1 := (lit "-" ++ o)%list in
  let s2 := n in
  let s3 := d in
  Ok (s1 ++ s2 ++ s3)%list.

(** ** [re.sub] at the patterns fixed in the source

    [re.sub(pattern, repl, string)] replaces the leftmost non-overlapping
    matches of [pattern], scanning from left to right.  None of the
    replacement strings fixed in the source holds a backslash except
    ["\\1"] of line 332, which stands for the text of group 1. *)

Fixpoint str_eqb (a b : str) : bool :=
  match a, b with
  | [], [] => true
  | x :: a', y :: b' => Ascii.eqb x y && str_eqb a' b'
  | _, _ => false
  end.

(** [s.startswith(p)] *)
Fixpoint prefixb (p s : str) : bool :=
  match p, s with
  | [], _ => true
  | x :: p', y :: s' => Ascii.eqb x y && prefixb p' s'
  | _ :: _, [] => false
  end.

(** [p in s]: [p] occurs in [s] as a substring. *)
Fixpoint contains (p s : str) : bool :=
  prefixb p s ||
  match s with
  | [] => false
  | _ :: r => contains p r
  end.

(** A pattern without metacharacters.  [skip] counts the characters of
    the match found last that are still to be passed over. *)
Fixpoint sub_lit_from (pat repl : str) (skip : nat) (s : str) : str :=
  match s with
  | [] => []
  | c :: r =>
      match skip with
      | S k => sub_lit_from pat repl k r
      | O =>
          if prefixb pat s
          then repl ++ sub_lit_from pat repl (List.length pat - 1) r
          else c :: sub_lit_from pat repl 0 r
      end
  end.

(** The empty pattern matches before every character and at the end. *)
Definition re_sub_lit (pat repl s : str) : str :=
  match pat with
  | [] => repl ++ flat_map (fun c => c :: repl) s
  | _ :: _ => sub_lit_from pat repl 0 s
  end.

(** ["^lit"] replaced by [""]: without the MULTILINE flag [^] matches at
    the start of the string only. *)
Definition re_sub_bol (pat s : str) : str :=
  if prefixb pat s then skipn (List.length pat) s else s.

(** ["oh([# ]|$)"] replaced by ["ng"] (line 329).  The group consumes the
    ['#'] or the space; [$] matches at the end of the string and before a
    newline that ends it, and consumes nothing. *)
Fixpoint re_sub_oh_end (s : str) : str :=
  match s with
  | [] => []
  | a :: r =>
      match r with
      | b :: t =>
          if Ascii.eqb a "o" && Ascii.eqb b "h" then
            match t with
            | [] => lit "ng"
            | c :: t' =>
                if Ascii.eqb c "#" || Ascii.eqb c " " then lit "ng" ++ re_sub_oh_end t'
                else if Ascii.eqb c "010" && match t' with [] => true | _ => false end
                     then lit "ng" ++ [c]
                     else a :: re_sub_oh_end r
            end
          else a :: re_sub_oh_end r
      | [] => [a]
      end
  end.

(** [\w] of Python 3 on a [str] pattern: alphanumeric or ['_'], here on
    the code points below 256. *)
Definition is_word (c : ascii) : bool :=
  let n := N_of_ascii c in
  existsb (fun r => (fst r <=? n)%N && (n <=? snd r)%N)
    [ (48, 57); (65, 90); (95, 95); (97, 122); (170, 170); (178, 179);
      (181, 181); (185, 186); (188, 190); (192, 214); (216, 246);
      (248, 255) ]%N.

(** Does the run of [\W] characters at the head of [s] hold a ['-']? *)
Fixpoint dash_in_run (s : str) : bool :=
  match s with
  | [] => false
  | c :: r => if is_word c then false else Ascii.eqb c "-" || dash_in_run r
  end.

(** ["(\W+)\-"] replaced by ["\\1"] (line 332).  [\W+] is greedy and
    ['-'] is itself a [\W] character, so a match starts at the first
    character of a maximal run of [\W] characters and ends at the last
    ['-'] of this run, provided that ['-'] is not the first character of
    the run; the replacement keeps group 1, that is, it deletes that
    ['-'].  The rest of the run holds no ['-'], so it has no match.
    [inrun] tells whether the previous character is a [\W] character. *)
Fixpoint sub_nonword_dash_from (inrun : bool) (s : str) : str :=
  match s with
  | [] => []
  | c :: r =>
      if is_word c then c :: sub_nonword_dash_from false r
      else if inrun && Ascii.eqb c "-" && negb (dash_in_run r)
           then sub_nonword_dash_from true r
           else c :: sub_nonword_dash_from true r
  end.

Definition re_sub_nonword_dash (s : str) : str := sub_nonword_dash_from false s.

Fixpoint drop_while (f : ascii -> bool) (s : str) : str :=
  match s with
  | [] => []
  | c :: r => if f c then drop_while f r else s
  end.

(** ["\W+$"] replaced by [""] (line 333): the run of [\W] characters that
    ends the string is removed (a final newline is a [\W] character). *)
Definition re_sub_nonword_eol (s : str) : str :=
  rev (drop_while (fun c => negb (is_word c)) (rev s)).

(** [" $"] replaced by [""] (lines 386, 402): one space at the end of the
    string, or before a newline that ends the string. *)
Definition re_sub_space_eol (s : str) : str :=
  match rev s with
  | c :: r =>
      if Ascii.eqb c " " then rev r
      else match r with
           | d :: r' =>
               if Ascii.eqb c "010" && Ascii.eqb d " " then rev (c :: r') else s
           | [] => s
           end
  | [] => s
  end.

(** ["-+"] replaced by ["-"] (line 388): [prev] tells whether the
    previous character is a ['-']. *)
Fixpoint sub_dash_plus_from (prev : bool) (s : str) : str :=
  match s with
  | [] => []
  | c :: r =>
      if Ascii.eqb c "-"
      then if prev then sub_dash_plus_from true r else c :: sub_dash_plus_from true r
      else c :: sub_dash_plus_from false r
  end.

Definition re_sub_dash_plus (s : str) : str := sub_dash_plus_from false s.

(** ** The phone stream builder: [graph2phone] (lines 205-335) *)

(** Lines 298-317: what one character appends to [phones]. *)
Definition emit (phones : str) (c ty : Z) : result str :=
  if ty =? 0 then
    tmp <- syllable c ;;
    Ok (phones ++ tmp)%list
  else if ty =? 1 then
    let tmp := lit "#" in
    Ok (phones ++ tmp)%list
  else Ok phones.

(** The [while] loop of lines 297-321; [integers] and [idx] have the same
    length and are read at the same index, so the loop walks their zip. *)
Fixpoint graph2phone_walk (items : list (Z * Z)) (phones : str) : result str :=
  match items with
  | [] => Ok phones
  | (c, ty) :: rest =>
      phones1 <- emit phones c ty ;;
      graph2phone_walk rest (re_sub_lit (lit "-oh") (lit "-") phones1)
  end.

(** Lines 323-334: the rewrites after the walk. *)
Definition graph2phone_cleanup (phones : str) : str :=
  let phones := re_sub_bol (lit "oh") phones in
  let phones := re_sub_lit (lit "-oh") [] phones in
  let phones := re_sub_lit (lit "oh-") (lit "ng-") phones in
  let phones := re_sub_oh_end phones in
  let phones := re_sub_nonword_dash phones in
  let phones := re_sub_nonword_eol phones in
  let phones := re_sub_bol (lit "-") phones in
  phones.

(** [graph2phone] on a [str]: [integers] is the list of the code points
    of [graphs] (lines 213-215).  The decoding of a [bytes] argument
    (lines 207-211), which raises on bytes that are not UTF-8, is outside
    this embedding: every property below is a property of the function on
    [str] arguments. *)
Definition graph2phone (integers : list Z) : result str :=
  let idx := check_char_type integers in
  phones <- graph2phone_walk (combine integers idx) [] ;;
  Ok (graph2phone_cleanup phones).

(** ** Phone boundaries: [add_phone_boundary] (lines 347-364)

    [s] is [phones[ipos:]] and [newphones] the string built so far.  After
    a marker or a space is passed, the two characters copied are read
    without a new test of the length: [phones[ipos + 1]] raises
    [IndexError] when only one character is left. *)
Fixpoint add_phone_boundary_from (s newphones : str) : result str :=
  match s with
  | a :: b :: r =>
      if Ascii.eqb a "-" || Ascii.eqb a "#" then
        match r with
        | c :: r' => add_phone_boundary_from r' (newphones ++ [a] ++ [b; c] ++ lit ",")
        | [] => Raise IndexError
        end
      else if Ascii.eqb a " " then
        match r with
        | c :: r' => add_phone_boundary_from r' (newphones ++ [b; c] ++ lit ",")
        | [] => Raise IndexError
        end
      else add_phone_boundary_from r (newphones ++ [a; b] ++ lit ",")
  | _ => Ok newphones
  end.

Definition add_phone_boundary (phones : str) : result str :=
  add_phone_boundary_from phones [].

(** ** The rule engine and the convergence driver (lines 338-344, 380-449) *)

Section Driver.

(** [re.sub] of Python's library at a pattern and a replacement of the
    rule table; it raises [re.error] on a pattern or a replacement that
    is not well formed. *)
Variable re_sub : str -> str -> str -> result str.

(** The [for] loop of [phone2prono].  [prono] is the local variable of
    that name: [None] while it is not bound. *)
Fixpoint phone2prono_for (rules : list (str * str)) (phones : str)
         (prono : option str) : result (option str) :=
  match rules with
  | [] => Ok prono
  | (pattern, replacement) :: rest =>
      phones' <- re_sub pattern replacement phones ;;
      phone2prono_for rest phones' (Some phones')
  end.

(** [return prono] reads a variable that only the body of the loop
    binds. *)
Definition phone2prono (phones : str) (rule_in rule_out : list str) : result str :=
  prono <- phone2prono_for (combine rule_in rule_out) phones None ;;
  match prono with
  | Some p => Ok p
  | None => Raise UnboundLocalError
  end.

Variables rule_in rule_out : list str.

(** Lines 385-388, after the first pass. *)
Definition normalize_first (prono : str) : str :=
  let prono := re_sub_lit (lit ",") (lit " ") prono in
  let prono := re_sub_space_eol prono in
  let prono := re_sub_lit (lit "#") (lit "-") prono in
  let prono := re_sub_dash_plus prono in
  prono.

(** Lines 401-402, after each pass of the loop. *)
Definition normalize_loop (prono_new : str) : str :=
  let prono_new := re_sub_lit (lit ",") (lit " ") prono_new in
  let prono_new := re_sub_space_eol prono_new in
  prono_new.

(** Line 400: the argument of the pass. *)
Definition reannotate (prono_prev : str) : str :=
  re_sub_lit (lit " ") (lit ",") (prono_prev ++ lit ",").

(** Lines 400-402: one pass of the loop. *)
Definition loop_pass (prono_prev : str) : result str :=
  prono_new <- phone2prono (reannotate prono_prev) rule_in rule_out ;;
  Ok (normalize_loop prono_new).

(** [re.sub("-", "", s)] of lines 404 and 406. *)
Definition strip_boundaries (s : str) : str := re_sub_lit (lit "-") [] s.

(** The [while not identical] loop (lines 399-419).  The loop has no
    bound in the source: [None] says that it is still running after
    [fuel] iterations.  The printing under [verbose] is left out. *)
Fixpoint graph2prono_while (fuel : nat) (prono_prev : str) : option (result str) :=
  match fuel with
  | O => None
  | S fuel' =>
      match loop_pass prono_prev with
      | Raise e => Some (Raise e)
      | Ok prono_new =>
          if str_eqb (strip_boundaries prono_prev) (strip_boundaries prono_new)
          then Some (Ok (strip_boundaries prono_new))
          else graph2prono_while fuel' prono_new
      end
  end.

(** Lines 381-388. *)
Definition first_pass (graphs : list Z) : result str :=
  romanized <- graph2phone graphs ;;
  romanized_bd <- add_phone_boundary romanized ;;
  prono <- phone2prono romanized_bd rule_in rule_out ;;
  Ok (normalize_first prono).

Definition graph2prono (fuel : nat) (graphs : list Z) : option (result str) :=
  match first_pass graphs with
  | Raise e => Some (Raise e)
  | Ok prono => graph2prono_while fuel prono
  end.

End Driver.

Definition run_g2p (re_sub : str -> str -> str -> result str) (fuel : nat)
           (graph : list Z) (rule : list str * list str) : option (result str) :=
  let '(rule_in, rule_out) := rule in
  graph2prono re_sub rule_in rule_out fuel graph.

(** [re.sub] at a rule whose pattern and replacement are plain text. *)
Definition re_sub_plain (pattern replacement s : str) : result str :=
  Ok (re_sub_lit pattern replacement s).

(** * Vocabulary of the properties *)

(** The fold of the design document: the rules rewrite the string one
    after the other, from the first to the last, each on the result of
    the one before. *)
Definition apply_rule (re_sub : str -> str -> str -> result str)
           (acc : result str) (rule : str * str) : result str :=
  s <- acc ;; re_sub (fst rule) (snd rule) s.

Definition fold_rules (re_sub : str -> str -> str -> result str)
           (rules : list (str * str)) (phones : str) : result str :=
  fold_left (apply_rule re_sub) rules (Ok phones).

(** The result of [k] passes of the loop from [prono]. *)
Fixpoint passes (re_sub : str -> str -> str -> result str)
         (rule_in rule_out : list str) (k : nat) (prono : str) : result str :=
  match k with
  | O => Ok prono
  | S k' =>
      q <- loop_pass re_sub rule_in rule_out prono ;;
      passes re_sub rule_in rule_out k' q
  end.

(** The characters that the normalization of the loop leaves alone. *)
Definition kept (c : ascii) : bool :=
  negb (Ascii.eqb c ","%char || Ascii.eqb c " "%char).

(** ** Looking for [-oh]

    The states of a scan of a string from left to right for the text
    [-oh]: nothing of it read, ['-'] read, [-o] read, [-oh] found. *)
Inductive scan_state : Type := Idle | Dash | DashO | Found.

Definition scan_step (q : scan_state) (c : ascii) : scan_state :=
  match q with
  | Found => Found
  | _ =>
      if Ascii.eqb c "-" then Dash
      else match q with
           | Dash => if Ascii.eqb c "o" then DashO else Idle
           | DashO => if Ascii.eqb c "h" then Found else Idle
           | _ => Idle
           end
  end.

Definition scan (q : scan_state) (s : str) : scan_state := fold_left scan_step s q.

Definition is_Idle (q : scan_state) : bool :=
  match q with Idle => true | _ => false end.

(** What the walk appends for one character: a marker, then text that
    the scan leaves with nothing read. *)
Definition token_ok (t : str) : bool :=
  match t with
  | m :: _ => (Ascii.eqb m "-" || Ascii.eqb m "#") && is_Idle (scan Idle t)
  | [] => false
  end.

(** The invariant of the walk: [phones] holds no [-oh], does not start
    with [oh], and does not end inside a possible [-oh]. *)
Definition walk_inv (phones : str) : Prop :=
  scan Idle phones = Idle /\ scan Dash phones <> Found.

(** "가" with the rules [aa] to [zz], [vv] to [aa], [zz] to [vv]: each pass
    exchanges [aa] and [vv]. *)
Definition swap_in : list str := [lit "aa"; lit "vv"; lit "zz"].
Definition swap_out : list str := [lit "zz"; lit "aa"; lit "vv"].

(** ** Spacing of a phone string: [add_space] (lines 367-377)

    [s] is [phones[ipos:]] and [first] tells whether [ipos] is 0.  The
    loop tests [ipos < len(phones)] and then reads [phones[ipos + 1]]:
    on a string of odd length the last read raises [IndexError]. *)
Fixpoint add_space_from (first : bool) (s newphones : str) : result str :=
  match s with
  | [] => Ok newphones
  | [_] => Raise IndexError
  | a :: b :: r =>
      if first
      then add_space_from false r (newphones ++ [a; b])
      else add_space_from false r (newphones ++ lit " " ++ [a; b])
  end.

Definition add_space (phones : str) : result str :=
  add_space_from true phones [].

(** ** Reading the rule book: [read_rulebook] (lines 139-159)

    The function is embedded on the list of the lines that [readlines]
    returns; opening and reading the file is left out. *)

(** [str.isspace], on the code points below 256: the characters that
    [line.strip()] removes at both ends. *)
Definition is_space (c : ascii) : bool :=
  let n := N_of_ascii c in
  ((9 <=? n)%N && (n <=? 13)%N) || ((28 <=? n)%N && (n <=? 32)%N)
  || (n =? 133)%N || (n =? 160)%N.

(** [s.strip()] *)
Definition str_strip (s : str) : str :=
  rev (drop_while is_space (rev (drop_while is_space s))).

(** [s.split(sep)] at a separator of one character: the fields between
    the occurrences of [sep], empty fields included. *)
Fixpoint str_split (sep : ascii) (s : str) : list str :=
  match s with
  | [] => [[]]
  | c :: r =>
      if Ascii.eqb c sep then [] :: str_split sep r
      else match str_split sep r with
           | f :: fs => (c :: f) :: fs
           | [] => [[c]]
           end
  end.

Definition tab : ascii := "009"%char.

(** The body of the loop of lines 147-157 on one line. *)
Definition read_rule_line (line : str) (rules : list str * list str)
  : result (list str * list str) :=
  let '(rule_in, rule_out) := rules in
  let line := str_strip line in
  match line with
  | [] => Ok (rule_in, rule_out)
  | c :: _ =>
      if negb (Ascii.eqb c "#") then
        let IOlist := str_split tab line in
        p <- py_index IOlist 0 ;;
        let rule_in := (rule_in ++ [p])%list in
        r <- py_index IOlist 1 ;;
        match r with
        | _ :: _ => Ok (rule_in, (rule_out ++ [r])%list)
        | [] => Ok (rule_in, (rule_out ++ [lit ""])%list)
        end
      else Ok (rule_in, rule_out)
  end.

Fixpoint read_rulebook_from (lines : list str) (rules : list str * list str)
  : result (list str * list str) :=
  match lines with
  | [] => Ok rules
  | line :: rest =>
      rules' <- read_rule_line line rules ;;
      read_rulebook_from rest rules'
  end.

Definition read_rulebook (lines : list str) : result (list str * list str) :=
  read_rulebook_from lines ([], []).

(** A rule as a line of the rule book. *)
Definition rule_line (pattern replacement : str) : str :=
  (pattern ++ [tab] ++ replacement ++ ["010"%char])%list.

(** ** More vocabulary *)

(** The characters to which [graph2phone] gives a meaning. *)
Definition is_graph (c : Z) : bool := (c =? 32) || is_hangul c.

(** The chunks that [add_phone_boundary] reads: two characters, after a
    marker that is copied or after a space that is dropped. *)
Inductive chunk : Type :=
| Plain (a b : ascii)
| Marked (m b c : ascii)
| Spaced (b c : ascii).

Definition is_marker (c : ascii) : bool :=
  Ascii.eqb c "-" || Ascii.eqb c "#".

Definition marker_or_space (c : ascii) : bool := is_marker c || Ascii.eqb c " ".

Definition chunk_ok (u : chunk) : bool :=
  match u with
  | Plain a _ => negb (is_marker a) && negb (Ascii.eqb a " ")
  | Marked m _ _ => is_marker m
  | Spaced _ _ => true
  end.

Definition chunk_text (u : chunk) : str :=
  match u with
  | Plain a b => [a; b]
  | Marked m b c => [m; b; c]
  | Spaced b c => [" "%char; b; c]
  end.

Definition chunk_out (u : chunk) : str :=
  match u with
  | Plain a b => [a; b; ","%char]
  | Marked m b c => [m; b; c; ","%char]
  | Spaced b c => [b; c; ","%char]
  end.

(** The scan of a string for a run of word characters of length one:
    outside a run, one character in the run, two or more, and a run of
    length one that has ended. *)
Inductive run_state : Type := Out | One | Many | Short.

Definition run_step (q : run_state) (c : ascii) : run_state :=
  match q with
  | Short => Short
  | Out => if is_word c then One else Out
  | One => if is_word c then Many else Short
  | Many => if is_word c then Many else Out
  end.

Definition runs (q : run_state) (s : str) : run_state := fold_left run_step s q.

(** The pairs of a string of even length. *)
Fixpoint pairs (s : str) : list str :=
  match s with
  | a :: b :: r => [a; b] :: pairs r
  | _ => []
  end.

(** [sep.join(l)] *)
Fixpoint str_join (sep : str) (l : list str) : str :=
  match l with
  | [] => []
  | [x] => x
  | x :: r => (x ++ sep ++ str_join sep r)%list
  end.
(** The phone string of one syllable, from its three codes. *)
Definition syllable_phones (o n d : str) : str :=
  ((if str_eqb o (lit "oh") then [] else o) ++ n ++
   (if str_eqb d (lit "oh") then lit "ng" else d))%list.

(** The states in which the scan for a short run may end. *)
Definition run_good (q : run_state) : bool :=
  match q with Out | Many => true | One | Short => false end.
(** The scan of the output is ahead of the scan of the input when it is
    in the same state, or in a run of two where the input is outside or
    in a run of one. *)
Definition ahead (q q' : run_state) : Prop :=
  q' = q \/ (q = Out /\ q' = Many) \/ (q = One /\ q' = Many).

(** The stream after line 333: empty, or ending in a run of two or more
    word characters. *)
Definition ends_in_run (s : str) : Prop := s = [] \/ runs Out s = Many.

(** [re.sub] at a rule of plain text, or at the pattern ["("], which
    does not compile: [re.error]. *)
Definition re_sub_plain_or_error (pattern replacement s : str) : result str :=
  if str_eqb pattern (lit "(") then Raise ReError
  else Ok (re_sub_lit pattern replacement s).
(** A field of a rule line that stays within its line and that
    [str_strip] and [str_split] leave whole: not empty, no white space at
    its ends, no tab inside, and no line break inside (neither a line
    feed nor a carriage return, at which [readlines] ends a line). *)
Definition field_ok (f : str) : bool :=
  match f with
  | [] => false
  | c :: _ => negb (is_space c)
  end
  && negb (is_space (last f " "%char))
  && forallb (fun c => negb (Ascii.eqb c tab)) f
  && forallb (fun c => negb (Ascii.eqb c "010") && negb (Ascii.eqb c "013")) f.


(** A rule that can be written as a line: two fields, the pattern not
    starting with ['#']. *)
Definition rule_ok (rule : str * str) : bool :=
  field_ok (fst rule) && field_ok (snd rule)
  && negb (prefixb (lit "#") (fst rule)).

(** A line that [read_rulebook] passes over: blank, or a comment. *)
Definition skipped_line (line : str) : bool :=
  match str_strip line with
  | [] => true
  | c :: _ => Ascii.eqb c "#"
  end.
(** What every rule book that has been read satisfies. *)
Definition pattern_ok (p : str) : Prop :=
  exists c t, p = c :: t /\ c <> "#"%char /\ is_space c = false /\
              ~ In tab p.

(** The characters of a phone string: the letters and the digit of the
    codes of the three tables, [n] and [g] of the coda [ng], and the two
    markers. *)
Definition phone_char (c : ascii) : bool :=
  existsb (Ascii.eqb c) (lit "0abcefghiklmnopqrstuvwxy-#").

(** * Properties of the decomposition *)

Lemma py_index_in_range {A : Type} (l : list A) (i : Z) :
  0 <= i < Z.of_nat (List.length l) ->
  exists a, py_index l i = Ok a /\ nth_error l (Z.to_nat i) = Some a.
Proof.
  intros [Hlo Hhi]. unfold py_index.
  destruct (i <? 0) eqn:Hneg; [apply Z.ltb_lt in Hneg; lia|].
  destruct (Z.of_nat (List.length l) <=? i) eqn:Hge;
    [apply Z.leb_le in Hge; lia|].
  rewrite Hneg. simpl.
  destruct (nth_error l (Z.to_nat i)) as [a|] eqn:Hn.
  - exists a. split; reflexivity.
  - apply nth_error_None in Hn. lia.
Qed.

Lemma index_ranges (c : Z) :
  44032 <= c <= 55203 ->
  0 <= iONS c - 1 < 19 /\ 0 <= iNUC c - 1 < 21 /\ 0 <= iCOD c - 1 < 28.
Proof.
  intros Hc. unfold iONS, iNUC, iCOD, base.
  assert (H588 : 0 <= (c - 44032) mod 588 < 588) by (apply Z.mod_pos_bound; lia).
  assert (H28 : 0 <= ((c - 44032) mod 588) mod 28 < 28) by (apply Z.mod_pos_bound; lia).
  assert (Hq : 0 <= (c - 44032) / 588 < 19).
  { split; [apply Z.div_pos; lia | apply Z.div_lt_upper_bound; lia]. }
  assert (Hn : 0 <= ((c - 44032) mod 588) / 28 < 21).
  { split; [apply Z.div_pos; lia | apply Z.div_lt_upper_bound; lia]. }
  lia.
Qed.

Lemma py_index_In {A : Type} (l : list A) (i : Z) (a : A) :
  py_index l i = Ok a -> In a l.
Proof.
  unfold py_index. destruct (_ || _); [discriminate|].
  destruct (nth_error l _) as [x|] eqn:E; [|discriminate].
  intros H. injection H as <-. apply (nth_error_In _ _ E).
Qed.

Lemma is_hangul_range c : is_hangul c = true -> 44032 <= c <= 55203.
Proof. unfold is_hangul. intros H. apply andb_true_iff in H. lia. Qed.

Lemma decompose_ok (c : Z) :
  44032 <= c <= 55203 ->
  exists o n d, decompose c = Ok (o, n, d) /\ In o ONS /\ In n NUC /\ In d COD.
Proof.
  intros Hc. pose proof (index_ranges c Hc) as (Ho & Hn & Hd).
  destruct (py_index_in_range ONS (iONS c - 1)) as (o & Eo & _); [cbn; lia|].
  destruct (py_index_in_range NUC (iNUC c - 1)) as (n & En & _); [cbn; lia|].
  destruct (py_index_in_range COD (iCOD c - 1)) as (d & Ed & _); [cbn; lia|].
  exists o, n, d. unfold decompose. rewrite Eo, En, Ed.
  repeat split; eauto using py_index_In.
Qed.

(** C4.  For a code point [c] of the Hangul block, the three indices
    computed from [c - 44032] lie within the three tables (onset below 19,
    nucleus below 21, coda below 28), so every table access of the
    decomposer succeeds, and [44032 + onset*588 + nucleus*28 + coda] gives
    [c] back. *)
Theorem decompose_in_bounds_and_reencodes (c : Z) :
  44032 <= c <= 55203 ->
  let onset := iONS c - 1 in
  let nucleus := iNUC c - 1 in
  let coda := iCOD c - 1 in
  (0 <= onset < 19 /\ 0 <= nucleus < 21 /\ 0 <= coda < 28) /\
  onset = (c - 44032) / 588 /\
  nucleus = ((c - 44032) mod 588) / 28 /\
  coda = (c - 44032) mod 28 /\
  (exists o n d, decompose c = Ok (o, n, d)) /\
  44032 + onset * 588 + nucleus * 28 + coda = c.
Proof.
  intros Hc onset nucleus coda.
  pose proof (index_ranges c Hc) as (Ho & Hn & Hd).
  fold onset nucleus coda in Ho, Hn, Hd.
  assert (Hcoda : ((c - 44032) mod 588) mod 28 = (c - 44032) mod 28).
  { pose proof (Z.div_mod (c - 44032) 588 ltac:(lia)) as E1.
    pose proof (Z.div_mod ((c - 44032) mod 588) 28 ltac:(lia)) as E2.
    pose proof (Z.mod_pos_bound ((c - 44032) mod 588) 28 ltac:(lia)) as B.
    apply (Z.mod_unique _ _ (21 * ((c - 44032) / 588) + ((c - 44032) mod 588) / 28));
      [left; exact B | lia]. }
  repeat split; try lia.
  - subst onset. unfold iONS, base. lia.
  - subst nucleus. unfold iNUC, base. lia.
  - subst coda. unfold iCOD, base. lia.
  - destruct (py_index_in_range ONS onset) as (o & Eo & _); [simpl; lia|].
    destruct (py_index_in_range NUC nucleus) as (n & En & _); [simpl; lia|].
    destruct (py_index_in_range COD coda) as (d & Ed & _); [simpl; lia|].
    exists o, n, d. unfold decompose.
    fold onset nucleus coda. rewrite Eo, En, Ed. reflexivity.
  - subst onset nucleus coda. unfold iONS, iNUC, iCOD, base.
    pose proof (Z.div_mod (c - 44032) 588 ltac:(lia)) as E1.
    pose proof (Z.div_mod ((c - 44032) mod 588) 28 ltac:(lia)) as E2.
    lia.
Qed.

Lemma decompose_in_bounds_and_reencodes_witness :
  44032 <= 47932 <= 55203 /\
  44032 + (iONS 47932 - 1) * 588 + (iNUC 47932 - 1) * 28 + (iCOD 47932 - 1)
  = 47932.
Proof.
  split; [lia|].
  apply (decompose_in_bounds_and_reencodes 47932). lia.
Defined.

(** * Properties of the tables and of the phone stream builder *)

(** C9 (as the code has it).  For the input "스물" (code points 49828 and
    47932) the syllable 스 decomposes into onset [s0] and nucleus [xx]
    with no coda, and the syllable 물 into onset [mm], nucleus [uu] and
    coda [ll]; the phone stream built from the two is [s0xx-mmuull]. *)
Theorem seumul_decomposition :
  decompose 49828 = Ok (lit "s0", lit "xx", lit "") /\
  decompose 47932 = Ok (lit "mm", lit "uu", lit "ll") /\
  graph2phone [49828; 47932] = Ok (lit "s0xx-mmuull").
Proof. repeat split; vm_compute; reflexivity. Qed.

(** The coda of 물 is not [lb]. *)
Lemma mul_coda_is_not_lb :
  decompose 47932 <> Ok (lit "mm", lit "uu", lit "lb").
Proof. vm_compute. discriminate. Qed.

(** C7 (the code at the input "강 가", code points 44053, 32, 44032).
    The coda [oh] of 강 stands before the word marker: line 329 rewrites
    [oh#] to [ng], so the word marker is consumed, while line 328 keeps
    the ['-'] that follows a coda [oh].  With a syllable that has no coda
    [oh] before the space ("가 가"), the word marker stays. *)
Theorem coda_oh_rewrite_consumes_word_marker :
  re_sub_oh_end (lit "-k0aaoh#-k0aa") = lit "-k0aang-k0aa" /\
  re_sub_lit (lit "oh-") (lit "ng-") (lit "-k0aaoh-k0aa") = lit "-k0aang-k0aa" /\
  graph2phone [44053; 32; 44032] = Ok (lit "k0aang-k0aa") /\
  graph2phone [44032; 32; 44032] = Ok (lit "k0aa#k0aa").
Proof. repeat split; vm_compute; reflexivity. Qed.

(** * Properties of the scan for [-oh] *)

Lemma scan_cons q c s : scan q (c :: s) = scan (scan_step q c) s.
Proof. reflexivity. Qed.

Lemma scan_app q a b : scan q (a ++ b) = scan (scan q a) b.
Proof. apply fold_left_app. Qed.

Lemma scan_Found s : scan Found s = Found.
Proof. induction s as [|c s IH]; [reflexivity | exact IH]. Qed.

Lemma scan_not_Found_start q s : scan q s <> Found -> q <> Found.
Proof. intros H ->. apply H, scan_Found. Qed.

Lemma scan_prefix_not_Found q a b : scan q (a ++ b) <> Found -> scan q a <> Found.
Proof. rewrite scan_app. apply scan_not_Found_start. Qed.

Lemma prefixb_skipn (p s : str) :
  prefixb p s = true -> s = (p ++ skipn (List.length p) s)%list.
Proof.
  revert s. induction p as [|x p IH]; intros s H; [reflexivity|].
  destruct s as [|y s]; [discriminate|].
  cbn [prefixb] in H. apply andb_true_iff in H. destruct H as [E H].
  apply Ascii.eqb_eq in E. subst y. cbn. f_equal. apply IH, H.
Qed.

Lemma scan_dash_oh q r : scan q (lit "-oh" ++ r) = Found.
Proof. rewrite scan_app. destruct q; cbn; apply scan_Found. Qed.

Lemma contains_scan s :
  contains (lit "-oh") s = true -> forall q, scan q s = Found.
Proof.
  induction s as [|c s IH]; intros H q.
  - discriminate.
  - cbn [contains] in H. apply orb_true_iff in H. destruct H as [H|H].
    + apply prefixb_skipn in H. rewrite H. apply scan_dash_oh.
    + rewrite scan_cons. apply IH, H.
Qed.

Lemma scan_clean_contains q s :
  scan q s <> Found -> contains (lit "-oh") s = false.
Proof.
  intros H. destruct (contains (lit "-oh") s) eqn:E; [|reflexivity].
  exfalso. apply H, contains_scan, E.
Qed.

Lemma scan_clean_prefix s :
  scan Dash s <> Found -> prefixb (lit "oh") s = false.
Proof.
  intros H. destruct (prefixb (lit "oh") s) eqn:E; [|reflexivity].
  exfalso. apply H. apply prefixb_skipn in E. rewrite E, scan_app.
  cbn. apply scan_Found.
Qed.

(** A scan that starts with nothing read finds no more than a scan that
    starts in any other state. *)
Lemma scan_Idle_Found s :
  scan Idle s = Found -> forall q, scan q s = Found.
Proof.
  induction s as [|c s IH]; intros H q; [discriminate|].
  rewrite scan_cons in *. cbn [scan_step] in H.
  destruct (Ascii.eqb c "-") eqn:E.
  - destruct q; cbn [scan_step]; rewrite ?E; auto using scan_Found.
  - apply IH, H.
Qed.

Lemma scan_step_marker q c :
  q <> Found -> Ascii.eqb c "o" = false -> Ascii.eqb c "h" = false ->
  scan_step q c = scan_step Idle c.
Proof.
  intros Hq Eo Eh. destruct q; cbn [scan_step]; rewrite ?Eo, ?Eh; try reflexivity.
  congruence.
Qed.

(** * [re.sub] at a plain pattern, unfolded *)

Lemma sub_lit_from_skip pat repl k s :
  sub_lit_from pat repl k s = sub_lit_from pat repl 0 (skipn k s).
Proof.
  revert s. induction k as [|k IH]; intros s; [reflexivity|].
  destruct s as [|c s]; [reflexivity|]. cbn [sub_lit_from skipn]. apply IH.
Qed.

Lemma re_sub_lit_cons x pat repl c r :
  re_sub_lit (x :: pat) repl (c :: r) =
  if prefixb (x :: pat) (c :: r)
  then (repl ++ re_sub_lit (x :: pat) repl (skipn (List.length pat) r))%list
  else c :: re_sub_lit (x :: pat) repl r.
Proof.
  unfold re_sub_lit. cbn [sub_lit_from].
  destruct (prefixb (x :: pat) (c :: r)); [|reflexivity].
  rewrite sub_lit_from_skip. cbn [List.length Nat.sub].
  rewrite Nat.sub_0_r. reflexivity.
Qed.

Lemma re_sub_lit_absent x pat repl s :
  contains (x :: pat) s = false -> re_sub_lit (x :: pat) repl s = s.
Proof.
  induction s as [|c s IH]; intros H; [reflexivity|].
  cbn [contains] in H. apply orb_false_iff in H. destruct H as [H1 H2].
  rewrite re_sub_lit_cons, H1, IH by exact H2. reflexivity.
Qed.

(** A string that the scan leaves with nothing read is rewritten on its
    own: no match of [-oh] starts in it and ends after it. *)
Lemma sub_dash_oh_app repl (a b : str) :
  forall q, scan q a = Idle ->
  re_sub_lit (lit "-oh") repl (a ++ b) = (a ++ re_sub_lit (lit "-oh") repl b)%list.
Proof.
  induction a as [|c a IH]; intros q H; [reflexivity|].
  change (lit "-oh") with ("-"%char :: lit "oh") in *.
  cbn [app]. rewrite re_sub_lit_cons.
  destruct (prefixb ("-"%char :: lit "oh") (c :: a ++ b)) eqn:P.
  - exfalso. cbn [prefixb lit list_ascii_of_string] in P.
    apply andb_true_iff in P. destruct P as [Ec P].
    apply Ascii.eqb_eq in Ec. subst c.
    assert (Hq : q <> Found) by (intros ->; rewrite scan_Found in H; discriminate).
    destruct a as [|x a].
    + destruct q; cbn in H; congruence.
    + cbn [app] in P. apply andb_true_iff in P. destruct P as [Ex P].
      apply Ascii.eqb_eq in Ex. subst x.
      destruct a as [|y a].
      * destruct q; cbn in H; congruence.
      * cbn [app] in P. apply andb_true_iff in P. destruct P as [Ey _].
        apply Ascii.eqb_eq in Ey. subst y.
        change ("-"%char :: "o"%char :: "h"%char :: a) with (lit "-oh" ++ a)%list in H.
        rewrite scan_dash_oh in H. discriminate.
  - f_equal. apply (IH (scan_step q c)). exact H.
Qed.

(** * The rewrites after the walk keep a string free of [-oh] *)

Lemma sub_oh_dash_clean (n : nat) :
  forall s q, (List.length s <= n)%nat ->
  scan q s <> Found ->
  scan q (re_sub_lit (lit "oh-") (lit "ng-") s) <> Found.
Proof.
  induction n as [|n IH]; intros s q Hlen H.
  - destruct s; [exact H | cbn in Hlen; lia].
  - destruct s as [|c r]; [exact H|].
    change (lit "oh-") with ("o"%char :: lit "h-") in *.
    rewrite re_sub_lit_cons.
    destruct (prefixb ("o"%char :: lit "h-") (c :: r)) eqn:P.
    + apply prefixb_skipn in P.
      change (skipn (List.length ("o"%char :: lit "h-")) (c :: r))
        with (skipn (List.length (lit "h-")) r) in P.
      remember (skipn (List.length (lit "h-")) r) as rest eqn:Erest.
      clear Erest. rewrite P in H.
      assert (Hr : (List.length rest <= n)%nat).
      { apply (f_equal (@List.length ascii)) in P. cbn in P, Hlen. lia. }
      rewrite scan_app in H |- *.
      assert (Hq : q <> Found) by (intros ->; rewrite scan_Found in H; auto).
      destruct q; try congruence.
      * apply (IH rest Dash Hr). exact H.
      * exfalso. apply H. cbn. apply scan_Found.
      * apply (IH rest Dash Hr). exact H.
    + rewrite scan_cons in H |- *. apply IH; [cbn in Hlen; lia | exact H].
Qed.

Lemma sub_oh_end_clean (n : nat) :
  forall s q, (List.length s <= n)%nat ->
  scan q s <> Found -> scan q (re_sub_oh_end s) <> Found.
Proof.
  induction n as [|n IH]; intros s q Hlen H.
  - destruct s; [exact H | cbn in Hlen; lia].
  - destruct s as [|a r]; [exact H|].
    destruct r as [|b t]; [exact H|].
    cbn [re_sub_oh_end].
    assert (Hq : q <> Found) by (apply (scan_not_Found_start _ _ H)).
    assert (Hdefault : scan q (a :: re_sub_oh_end (b :: t)) <> Found).
    { rewrite scan_cons in H |- *. apply IH; [cbn in Hlen |- *; lia | exact H]. }
    destruct (Ascii.eqb a "o" && Ascii.eqb b "h") eqn:Eoh; [|exact Hdefault].
    apply andb_true_iff in Eoh. destruct Eoh as [Ea Eb].
    apply Ascii.eqb_eq in Ea, Eb. subst a b.
    destruct t as [|c t'].
    + destruct q; cbn; congruence.
    + destruct (Ascii.eqb c "#" || Ascii.eqb c " ") eqn:Ec.
      * rewrite scan_app.
        assert (Hin : scan Idle t' <> Found).
        { apply orb_true_iff in Ec.
          destruct Ec as [Ec|Ec]; apply Ascii.eqb_eq in Ec; subst c;
            destruct q; cbn in H; try congruence; try exact H;
            exfalso; apply H, scan_Found. }
        replace (scan q (lit "ng")) with Idle by (destruct q; cbn; congruence).
        apply IH; [cbn in Hlen; lia | exact Hin].
      * destruct (Ascii.eqb c "010" && match t' with [] => true | _ :: _ => false end) eqn:En;
          [|exact Hdefault].
        apply andb_true_iff in En. destruct En as [En _].
        apply Ascii.eqb_eq in En. subst c.
        destruct q; cbn; congruence.
Qed.

Lemma is_word_not_o c : is_word c = false -> Ascii.eqb c "o" = false.
Proof.
  intros H. destruct (Ascii.eqb c "o") eqn:E; [|reflexivity].
  apply Ascii.eqb_eq in E. subst c. discriminate.
Qed.

(** Line 332 deletes ['-'] characters only, each after a [\W] character:
    the output of the scan of the result is, at each point, the state of
    the scan of the input or [Idle]. *)
Lemma sub_nonword_dash_clean (s : str) :
  forall (inrun : bool) (q q' : scan_state),
    q' = q \/ q' = Idle ->
    (inrun = true -> q' <> DashO) ->
    scan q s <> Found ->
    scan q' (sub_nonword_dash_from inrun s) <> Found.
Proof.
  induction s as [|c r IH]; intros inrun q q' Hrel Hrun H.
  - cbn. destruct Hrel as [->| ->]; [exact H | discriminate].
  - assert (Hq : q <> Found) by (apply (scan_not_Found_start _ _ H)).
    assert (Hstep : scan_step q' c = scan_step q c \/ scan_step q' c = Idle
                    \/ (Ascii.eqb c "-" = true /\ scan_step q' c = scan_step q c)).
    { destruct Hrel as [->| ->]; [left; reflexivity|].
      cbn [scan_step]. destruct (Ascii.eqb c "-") eqn:E.
      - left. destruct q; cbn [scan_step]; rewrite ?E; congruence.
      - right. left. reflexivity. }
    assert (Hstep' : scan_step q' c = scan_step q c \/ scan_step q' c = Idle)
      by (destruct Hstep as [?|[?|[_ ?]]]; auto).
    clear Hstep. rewrite scan_cons in H.
    cbn [sub_nonword_dash_from].
    destruct (is_word c) eqn:W.
    + rewrite scan_cons. apply (IH false (scan_step q c)); auto. discriminate.
    + assert (Hkeep : scan q' (c :: sub_nonword_dash_from true r) <> Found).
      { rewrite scan_cons. apply (IH true (scan_step q c)); auto.
        intros _. pose proof (is_word_not_o c W) as Eo.
        destruct q'; cbn [scan_step]; rewrite ?Eo;
          destruct (Ascii.eqb c "-"); try discriminate.
        - destruct (Ascii.eqb c "h"); discriminate. }
      destruct (inrun && Ascii.eqb c "-" && negb (dash_in_run r)) eqn:D; [|exact Hkeep].
      apply andb_true_iff in D. destruct D as [D _].
      apply andb_true_iff in D. destruct D as [Di Dc].
      apply Ascii.eqb_eq in Dc. subst c inrun.
      apply (IH true (scan_step q "-")); auto.
      specialize (Hrun eq_refl).
      destruct Hrel as [->| ->]; [|right; reflexivity].
      destruct q; cbn; first [left; reflexivity | right; reflexivity | congruence].
Qed.

Lemma drop_while_suffix (f : ascii -> bool) (l : str) :
  exists t, l = (t ++ drop_while f l)%list.
Proof.
  induction l as [|c l [t IH]]; [exists []; reflexivity|].
  cbn [drop_while]. destruct (f c).
  - exists (c :: t). cbn. f_equal. exact IH.
  - exists []. reflexivity.
Qed.

Lemma sub_nonword_eol_prefix (s : str) :
  exists t, s = (re_sub_nonword_eol s ++ t)%list.
Proof.
  unfold re_sub_nonword_eol.
  destruct (drop_while_suffix (fun c => negb (is_word c)) (rev s)) as [t Ht].
  exists (rev t).
  rewrite <- rev_app_distr, <- Ht, rev_involutive. reflexivity.
Qed.

Lemma sub_nonword_eol_clean q s :
  scan q s <> Found -> scan q (re_sub_nonword_eol s) <> Found.
Proof.
  destruct (sub_nonword_eol_prefix s) as [t Ht]. intros H.
  rewrite Ht in H. apply scan_prefix_not_Found in H. exact H.
Qed.

Lemma sub_bol_dash_clean s :
  scan Dash s <> Found -> scan Dash (re_sub_bol (lit "-") s) <> Found.
Proof.
  intros H. unfold re_sub_bol.
  destruct (prefixb (lit "-") s) eqn:P; [|exact H].
  apply prefixb_skipn in P. rewrite P in H.
  rewrite scan_app in H. exact H.
Qed.

Lemma sub_bol_oh_clean s :
  scan Dash s <> Found -> re_sub_bol (lit "oh") s = s.
Proof.
  intros H. unfold re_sub_bol. rewrite (scan_clean_prefix s H). reflexivity.
Qed.

Lemma cleanup_clean phones :
  scan Dash phones <> Found -> scan Dash (graph2phone_cleanup phones) <> Found.
Proof.
  intros H. unfold graph2phone_cleanup.
  rewrite (sub_bol_oh_clean phones H).
  change (lit "-oh") with ("-"%char :: lit "oh").
  rewrite (re_sub_lit_absent _ _ _ phones (scan_clean_contains _ _ H)).
  apply sub_bol_dash_clean, sub_nonword_eol_clean.
  apply (sub_nonword_dash_clean _ false Dash Dash); auto; [discriminate|].
  apply (sub_oh_end_clean _ _ _ (le_n _)).
  apply (sub_oh_dash_clean _ _ _ (le_n _)). exact H.
Qed.

(** * The walk of [graph2phone] *)

Lemma syllable_tokens_ok :
  forallb (fun o => forallb (fun n => forallb (fun d =>
    token_ok (re_sub_lit (lit "-oh") (lit "-") (lit "-" ++ o ++ n ++ d)))
    COD) NUC) ONS = true.
Proof. vm_compute. reflexivity. Qed.

Lemma syllable_token_ok (c : Z) :
  is_hangul c = true ->
  exists tmp, syllable c = Ok tmp /\
              token_ok (re_sub_lit (lit "-oh") (lit "-") tmp) = true.
Proof.
  intros Hc. destruct (decompose_ok c (is_hangul_range c Hc))
    as (o & n & d & E & Ho & Hn & Hd).
  unfold syllable. rewrite E. cbn [bind].
  eexists. split; [reflexivity|].
  pose proof syllable_tokens_ok as T.
  rewrite forallb_forall in T. specialize (T o Ho).
  rewrite forallb_forall in T. specialize (T n Hn).
  rewrite forallb_forall in T. specialize (T d Hd).
  rewrite <- app_assoc. exact T.
Qed.

Lemma walk_inv_app_token (phones t : str) :
  walk_inv phones -> token_ok t = true -> walk_inv (phones ++ t).
Proof.
  intros [HI HD] Ht. destruct t as [|m t]; [discriminate|].
  cbn [token_ok] in Ht. apply andb_true_iff in Ht. destruct Ht as [Hm Hs].
  assert (Es : scan Idle (m :: t) = Idle)
    by (destruct (scan Idle (m :: t)); try discriminate; reflexivity).
  split.
  - rewrite scan_app, HI. exact Es.
  - rewrite scan_app, scan_cons.
    rewrite (scan_step_marker (scan Dash phones) m HD).
    + rewrite <- scan_cons, Es. discriminate.
    + apply orb_true_iff in Hm. destruct Hm as [E|E];
        apply Ascii.eqb_eq in E; subst m; reflexivity.
    + apply orb_true_iff in Hm. destruct Hm as [E|E];
        apply Ascii.eqb_eq in E; subst m; reflexivity.
Qed.

Lemma walk_step (phones : str) (c : Z) :
  walk_inv phones ->
  exists phones1,
    emit phones c (char_type c) = Ok phones1 /\
    walk_inv (re_sub_lit (lit "-oh") (lit "-") phones1).
Proof.
  intros Hinv. pose proof Hinv as [HI HD].
  unfold emit, char_type.
  destruct (c =? 32) eqn:E32; [|destruct (is_hangul c) eqn:Eh].
  - exists (phones ++ lit "#")%list. split; [reflexivity|].
    rewrite (sub_dash_oh_app _ phones _ Idle HI).
    apply walk_inv_app_token; [exact Hinv | reflexivity].
  - destruct (syllable_token_ok c Eh) as (tmp & Es & Ht).
    exists (phones ++ tmp)%list. split.
    + change (0 =? 0) with true. cbv iota. rewrite Es. reflexivity.
    + rewrite (sub_dash_oh_app _ phones _ Idle HI).
      apply walk_inv_app_token; assumption.
  - exists phones. split; [reflexivity|].
    change (lit "-oh") with ("-"%char :: lit "oh").
    rewrite (re_sub_lit_absent _ _ _ phones (scan_clean_contains _ _ HD)).
    exact Hinv.
Qed.

Lemma walk_total (integers : list Z) :
  forall phones,
    walk_inv phones ->
    exists p, graph2phone_walk (combine integers (check_char_type integers)) phones = Ok p /\
              walk_inv p.
Proof.
  induction integers as [|c l IH]; intros phones Hinv.
  - exists phones. split; [reflexivity | exact Hinv].
  - cbn [check_char_type map combine graph2phone_walk].
    destruct (walk_step phones c Hinv) as (phones1 & E & Hinv1).
    rewrite E. cbn [bind]. apply IH, Hinv1.
Qed.

(** C10.  For every input, [graph2phone] returns a string (it raises no
    exception), and this string neither holds the text [-oh] nor starts
    with [oh]. *)
Theorem graph2phone_no_initial_null_onset (integers : list Z) :
  exists phones,
    graph2phone integers = Ok phones /\
    contains (lit "-oh") phones = false /\
    prefixb (lit "oh") phones = false.
Proof.
  destruct (walk_total integers []) as (p & Ew & _ & HD).
  { split; [reflexivity | discriminate]. }
  unfold graph2phone. rewrite Ew. cbn [bind].
  eexists. split; [reflexivity|].
  pose proof (cleanup_clean p HD) as H.
  split; [exact (scan_clean_contains _ _ H) | exact (scan_clean_prefix _ H)].
Qed.

(** * Properties of [re.sub] at a pattern of one character *)

Lemma re_sub_lit_char (c : ascii) (repl s : str) :
  re_sub_lit [c] repl s =
  flat_map (fun x => if Ascii.eqb c x then repl else [x]) s.
Proof.
  unfold re_sub_lit. induction s as [|x s IH]; [reflexivity|].
  cbn [sub_lit_from prefixb flat_map List.length Nat.sub].
  destruct (Ascii.eqb c x); cbn [andb]; rewrite IH.
  - destruct s; reflexivity.
  - reflexivity.
Qed.

Lemma strip_boundaries_spec (s : str) :
  strip_boundaries s = filter (fun x => negb (Ascii.eqb "-" x)) s.
Proof.
  unfold strip_boundaries. change (lit "-") with ["-"%char].
  rewrite re_sub_lit_char.
  induction s as [|x s IH]; [reflexivity|].
  cbn [flat_map filter]. rewrite IH. destruct (Ascii.eqb "-" x); reflexivity.
Qed.


Lemma strip_boundaries_id (s : str) :
  ~ In "-"%char s -> strip_boundaries s = s.
Proof.
  rewrite strip_boundaries_spec. induction s as [|x s IH]; [reflexivity|].
  intros H. cbn [filter].
  destruct (Ascii.eqb "-" x) eqn:E.
  - apply Ascii.eqb_eq in E. exfalso. apply H. left. symmetry. exact E.
  - cbn [negb]. rewrite IH; [reflexivity|]. intros Hin. apply H. right. exact Hin.
Qed.

Lemma str_eqb_eq (a b : str) : str_eqb a b = true <-> a = b.
Proof.
  revert b. induction a as [|x a IH]; intros [|y b]; cbn [str_eqb];
    try (split; [discriminate|discriminate]); [split; reflexivity|].
  rewrite andb_true_iff, Ascii.eqb_eq, IH.
  split; [intros [-> ->]; reflexivity | intros E; injection E; auto].
Qed.

Lemma str_eqb_neq (a b : str) : str_eqb a b = false <-> a <> b.
Proof.
  rewrite <- str_eqb_eq. destruct (str_eqb a b); split; congruence.
Qed.

(** * Properties of the normalizations *)

Lemma commas_to_spaces_kept (s : str) :
  filter kept (re_sub_lit (lit ",") (lit " ") s) = filter kept s.
Proof.
  change (lit ",") with [","%char]. rewrite re_sub_lit_char.
  induction s as [|x s IH]; [reflexivity|].
  cbn [flat_map]. rewrite filter_app, IH.
  destruct (Ascii.eqb "," x) eqn:E.
  - apply Ascii.eqb_eq in E. subst x. reflexivity.
  - cbn [filter]. destruct (kept x); reflexivity.
Qed.

Lemma rev_cons_inv {A : Type} (s r : list A) (c : A) :
  rev s = c :: r -> s = (rev r ++ [c])%list.
Proof.
  intros H. rewrite <- (rev_involutive s), H. reflexivity.
Qed.

Lemma space_eol_kept (s : str) :
  filter kept (re_sub_space_eol s) = filter kept s.
Proof.
  unfold re_sub_space_eol.
  destruct (rev s) as [|c r] eqn:E; [reflexivity|].
  apply rev_cons_inv in E.
  destruct (Ascii.eqb c " ") eqn:Ec.
  - apply Ascii.eqb_eq in Ec. subst. rewrite filter_app. cbn.
    rewrite app_nil_r. reflexivity.
  - destruct r as [|d r']; [reflexivity|].
    destruct (Ascii.eqb c "010" && Ascii.eqb d " ") eqn:Ed; [|reflexivity].
    apply andb_true_iff in Ed. destruct Ed as [E1 E2].
    apply Ascii.eqb_eq in E1, E2. subst.
    cbn [rev]. rewrite !filter_app. cbn. rewrite app_nil_r. reflexivity.
Qed.

Lemma dash_plus_subsequence (x : ascii) (s : str) :
  forall prev, In x (sub_dash_plus_from prev s) -> In x s.
Proof.
  induction s as [|c r IH]; intros prev H; [exact H|].
  cbn [sub_dash_plus_from] in H.
  destruct (Ascii.eqb c "-"); [destruct prev|].
  - right. apply (IH true), H.
  - destruct H as [H|H]; [left; exact H | right; apply (IH true), H].
  - destruct H as [H|H]; [left; exact H | right; apply (IH false), H].
Qed.

Lemma dash_plus_no_run (s : str) :
  prefixb (lit "-") (sub_dash_plus_from true s) = false /\
  forall prev, contains (lit "--") (sub_dash_plus_from prev s) = false.
Proof.
  induction s as [|c r [IHp IHc]]; [split; [reflexivity | intros prev; reflexivity]|].
  cbn [sub_dash_plus_from].
  destruct (Ascii.eqb c "-") eqn:E.
  - apply Ascii.eqb_eq in E. subst c. split; [exact IHp|].
    intros [|]; [apply IHc|].
    change (contains (lit "--") ("-"%char :: sub_dash_plus_from true r))
      with (prefixb (lit "-") (sub_dash_plus_from true r)
            || contains (lit "--") (sub_dash_plus_from true r)).
    rewrite IHp, IHc. reflexivity.
  - rewrite Ascii.eqb_sym in E. split.
    + cbn [prefixb lit list_ascii_of_string]. rewrite E. reflexivity.
    + intros prev. cbn [contains prefixb lit list_ascii_of_string].
      rewrite E, IHc. reflexivity.
Qed.

Lemma hash_to_dash_no_hash (s : str) :
  ~ In "#"%char (re_sub_lit (lit "#") (lit "-") s).
Proof.
  change (lit "#") with ["#"%char]. rewrite re_sub_lit_char.
  intros H. apply in_flat_map in H. destruct H as (y & _ & H).
  destruct (Ascii.eqb "#" y) eqn:E.
  - destruct H as [H|[]]. discriminate.
  - destruct H as [H|[]]. subst y. rewrite Ascii.eqb_refl in E. discriminate.
Qed.

(** C3 (as the code has it).  The normalization after the first rule pass
    (lines 385-388) does the four steps, so that its result holds no ['#']
    and no two ['-'] in a row; the normalization inside the loop (lines
    401-402) only replaces commas by spaces and strips one trailing
    space: every other character of the pass result, every ['#'] and every
    ['-'] among them, is kept as it is and in order, and the first
    normalization is the one of the loop followed by the replacement of
    ['#'] and the collapse of the runs of ['-']. *)
Theorem loop_normalization_keeps_markers (s : str) :
  normalize_loop s = re_sub_space_eol (re_sub_lit (lit ",") (lit " ") s) /\
  filter kept (normalize_loop s) = filter kept s /\
  normalize_first s =
    re_sub_dash_plus (re_sub_lit (lit "#") (lit "-") (normalize_loop s)) /\
  ~ In "#"%char (normalize_first s) /\
  contains (lit "--") (normalize_first s) = false.
Proof.
  split; [reflexivity|]. split; [|split; [reflexivity|split]].
  - unfold normalize_loop. rewrite space_eol_kept. apply commas_to_spaces_kept.
  - unfold normalize_first, re_sub_dash_plus. intros H.
    apply dash_plus_subsequence in H. exact (hash_to_dash_no_hash _ H).
  - unfold normalize_first, re_sub_dash_plus. apply dash_plus_no_run.
Qed.

(** In the second iteration of the run on "가가" with the single rule
    [-k0] to [#k0], the pass result holds a ['#'] that the normalization
    of the loop leaves in place: it is not the normalization in four
    steps. *)
Lemma loop_normalization_differs :
  loop_pass re_sub_plain [lit "-k0"] [lit "#k0"] (lit "k0 aa -k0 aa")
    = Ok (lit "k0 aa #k0 aa") /\
  normalize_loop (lit "k0,aa,#k0,aa,") = lit "k0 aa #k0 aa" /\
  normalize_loop (lit "k0,aa,#k0,aa,") <>
    re_sub_dash_plus (re_sub_lit (lit "#") (lit "-")
      (re_sub_space_eol (re_sub_lit (lit ",") (lit " ") (lit "k0,aa,#k0,aa,")))).
Proof.
  split; [vm_compute; reflexivity|].
  split; [vm_compute; reflexivity | vm_compute; discriminate].
Qed.

(** * Properties of the rule engine and of the convergence driver *)

Section DriverProperties.

Variable re_sub : str -> str -> str -> result str.

Lemma fold_rules_raise (rules : list (str * str)) (e : exn) :
  fold_left (apply_rule re_sub) rules (Raise e) = Raise e.
Proof. induction rules as [|r rules IH]; [reflexivity | exact IH]. Qed.

Lemma fold_rules_cons (p r : str) (rules : list (str * str)) (phones : str) :
  fold_rules re_sub ((p, r) :: rules) phones =
  (s <- re_sub p r phones ;; fold_rules re_sub rules s).
Proof.
  unfold fold_rules. cbn [fold_left]. unfold apply_rule at 2. cbn [bind fst snd].
  destruct (re_sub p r phones) as [s|e]; cbn [bind]; [reflexivity|].
  apply fold_rules_raise.
Qed.

Lemma phone2prono_for_fold (rules : list (str * str)) :
  forall (p r phones : str) (prono : option str),
    phone2prono_for re_sub ((p, r) :: rules) phones prono =
    (s <- fold_rules re_sub ((p, r) :: rules) phones ;; Ok (Some s)).
Proof.
  induction rules as [|[p' r'] rules IH]; intros p r phones prono.
  - unfold fold_rules. cbn. destruct (re_sub p r phones); reflexivity.
  - rewrite fold_rules_cons.
    change (phone2prono_for re_sub ((p, r) :: (p', r') :: rules) phones prono)
      with (s <- re_sub p r phones ;;
            phone2prono_for re_sub ((p', r') :: rules) s (Some s)).
    destruct (re_sub p r phones) as [s|e]; [|reflexivity].
    cbn [bind]. apply IH.
Qed.

(** On a table with at least one rule, one call of the rule engine is
    the fold of the rules over the phone string. *)
Lemma phone2prono_is_fold (phones : str) (rule_in rule_out : list str) :
  combine rule_in rule_out <> [] ->
  phone2prono re_sub phones rule_in rule_out =
  fold_rules re_sub (combine rule_in rule_out) phones.
Proof.
  intros Hne. unfold phone2prono.
  destruct (combine rule_in rule_out) as [|[p r] rules]; [congruence|].
  rewrite phone2prono_for_fold.
  destruct (fold_rules re_sub ((p, r) :: rules) phones); reflexivity.
Qed.

(** C5 (the code at the empty rule table).  The fold of no rule over a
    phone string is that string, while the call of the rule engine
    raises [UnboundLocalError]: [prono] is bound in the body of the loop
    only.  The same holds when one of the two lists is empty. *)
Theorem phone2prono_empty_table_raises (phones : str) (rule_in rule_out : list str) :
  fold_rules re_sub [] phones = Ok phones /\
  phone2prono re_sub phones [] [] = Raise UnboundLocalError /\
  phone2prono re_sub phones rule_in [] = Raise UnboundLocalError /\
  phone2prono re_sub phones [] rule_out = Raise UnboundLocalError.
Proof.
  repeat split; unfold phone2prono.
  destruct rule_in; reflexivity.
Qed.

Variables rule_in rule_out : list str.

Abbreviation pass := (loop_pass re_sub rule_in rule_out).
Abbreviation while := (graph2prono_while re_sub rule_in rule_out).
Abbreviation passes_ := (passes re_sub rule_in rule_out).

Lemma while_step_differ (fuel : nat) (prev new : str) :
  pass prev = Ok new ->
  str_eqb (strip_boundaries prev) (strip_boundaries new) = false ->
  while (S fuel) prev = while fuel new.
Proof. intros Hp He. cbn [graph2prono_while]. rewrite Hp, He. reflexivity. Qed.

Lemma while_step_identical (fuel : nat) (prev new : str) :
  pass prev = Ok new ->
  str_eqb (strip_boundaries prev) (strip_boundaries new) = true ->
  while (S fuel) prev = Some (Ok (strip_boundaries new)).
Proof. intros Hp He. cbn [graph2prono_while]. rewrite Hp, He. reflexivity. Qed.

Lemma while_step_raise (fuel : nat) (prev : str) (e : exn) :
  pass prev = Raise e -> while (S fuel) prev = Some (Raise e).
Proof. intros Hp. cbn [graph2prono_while]. rewrite Hp. reflexivity. Qed.

(** What the loop has seen last when it returns. *)
Lemma while_returns_last (fuel : nat) :
  forall prev out,
    while fuel prev = Some (Ok out) ->
    exists p q, pass p = Ok q /\
                strip_boundaries p = strip_boundaries q /\
                out = strip_boundaries q.
Proof.
  induction fuel as [|fuel IH]; intros prev out H; [discriminate|].
  cbn [graph2prono_while] in H.
  destruct (pass prev) as [new|e] eqn:Hp; [|discriminate].
  destruct (str_eqb (strip_boundaries prev) (strip_boundaries new)) eqn:He.
  - apply str_eqb_eq in He. injection H as <-. exists prev, new. auto.
  - apply IH in H. exact H.
Qed.

(** The loop alone, from any string: when it returns, and how it goes
    on. *)
Lemma graph2prono_while_returns_iff (fuel : nat) (prev out : str) :
  (while fuel prev = Some (Ok out) <->
   exists k p q,
     (k < fuel)%nat /\
     passes_ k prev = Ok p /\
     pass p = Ok q /\
     strip_boundaries p = strip_boundaries q /\
     out = strip_boundaries q /\
     forall j pj qj,
       (j < k)%nat -> passes_ j prev = Ok pj -> pass pj = Ok qj ->
       strip_boundaries pj <> strip_boundaries qj) /\
  (forall p q,
     pass p = Ok q -> strip_boundaries p <> strip_boundaries q ->
     while (S fuel) p = while fuel q) /\
  (forall p,
     pass p =
     (r <- phone2prono re_sub
             (re_sub_lit (lit " ") (lit ",") (p ++ lit ",")) rule_in rule_out ;;
      Ok (normalize_loop r))).
Proof.
  split; [|split].
  - revert prev. induction fuel as [|fuel IH]; intros prev.
    + split; [discriminate|]. intros (k & _ & _ & Hk & _). lia.
    + destruct (pass prev) as [new|e] eqn:Hp.
      * destruct (str_eqb (strip_boundaries prev) (strip_boundaries new)) eqn:He.
        -- rewrite (while_step_identical _ _ _ Hp He).
           apply str_eqb_eq in He. split.
           ++ intros H. injection H as <-.
              exists 0%nat, prev, new. repeat split; auto; try lia.
           ++ intros (k & p & q & Hk & Hpk & Hq & Heq & -> & Hmin).
              destruct k as [|k].
              ** cbn in Hpk. injection Hpk as <-. rewrite Hp in Hq.
                 injection Hq as <-. reflexivity.
              ** exfalso. apply (Hmin 0%nat prev new); [lia|reflexivity|exact Hp|exact He].
        -- rewrite (while_step_differ _ _ _ Hp He).
           apply str_eqb_neq in He. rewrite IH. split.
           ++ intros (k & p & q & Hk & Hpk & Hq & Heq & -> & Hmin).
              exists (S k), p, q. repeat split; auto; try lia.
              ** cbn [passes]. rewrite Hp. exact Hpk.
              ** intros j pj qj Hj Hpj Hqj.
                 destruct j as [|j].
                 --- cbn in Hpj. injection Hpj as <-. rewrite Hp in Hqj.
                     injection Hqj as <-. exact He.
                 --- cbn [passes] in Hpj. rewrite Hp in Hpj.
                     apply (Hmin j); [lia|exact Hpj|exact Hqj].
           ++ intros (k & p & q & Hk & Hpk & Hq & Heq & -> & Hmin).
              destruct k as [|k].
              ** cbn in Hpk. injection Hpk as <-. rewrite Hp in Hq.
                 injection Hq as <-. contradiction.
              ** cbn [passes] in Hpk. rewrite Hp in Hpk.
                 exists k, p, q. repeat split; auto; try lia.
                 intros j pj qj Hj Hpj Hqj.
                 apply (Hmin (S j)); [lia| |exact Hqj].
                 cbn [passes]. rewrite Hp. exact Hpj.
      * rewrite (while_step_raise _ _ _ Hp). split; [discriminate|].
        intros (k & p & q & Hk & Hpk & Hq & _).
        destruct k as [|k].
        -- cbn in Hpk. injection Hpk as <-. congruence.
        -- cbn [passes] in Hpk. rewrite Hp in Hpk. discriminate.
  - intros p q Hp Hne. apply while_step_differ; [exact Hp|].
    apply str_eqb_neq. exact Hne.
  - intros p. reflexivity.
Qed.

Lemma graph2prono_returns_last (fuel : nat) (graphs : list Z) (out : str) :
  graph2prono re_sub rule_in rule_out fuel graphs = Some (Ok out) ->
  exists p q, pass p = Ok q /\
              strip_boundaries p = strip_boundaries q /\
              out = strip_boundaries q.
Proof.
  unfold graph2prono. intros H.
  destruct (first_pass re_sub rule_in rule_out graphs) as [prono|e]; [|discriminate].
  apply while_returns_last in H. exact H.
Qed.


(** C8 (as the code has it).  The loop has no bound on its iterations
    and no error of its own: as long as the successive passes return
    and differ once every ['-'] is deleted, the loop is still running,
    whatever the number of iterations; and an exception that comes out
    of the loop is the one that a pass has raised. *)
Theorem loop_without_agreement_keeps_running (fuel : nat) (prev : str) :
  ((forall k, (k < fuel)%nat ->
      exists p q, passes_ k prev = Ok p /\ pass p = Ok q /\
                  strip_boundaries p <> strip_boundaries q) ->
   while fuel prev = None) /\
  (forall e, while fuel prev = Some (Raise e) ->
      exists k p, (k < fuel)%nat /\ passes_ k prev = Ok p /\ pass p = Raise e).
Proof.
  revert prev. induction fuel as [|fuel IH]; intros prev.
  - split; [reflexivity | discriminate].
  - split.
    + intros H.
      destruct (H 0%nat ltac:(lia)) as (p & q & Hp & Hq & Hne).
      cbn in Hp. injection Hp as <-.
      rewrite (while_step_differ _ _ _ Hq); [|apply str_eqb_neq; exact Hne].
      apply IH. intros k Hk.
      destruct (H (S k) ltac:(lia)) as (p' & q' & Hp' & Hq' & Hne').
      cbn [passes] in Hp'. rewrite Hq in Hp'. exists p', q'. auto.
    + intros e H. cbn [graph2prono_while] in H.
      destruct (pass prev) as [new|e'] eqn:Hp.
      * destruct (str_eqb _ _); [discriminate|].
        apply IH in H. destruct H as (k & p & Hk & Hpk & He).
        exists (S k), p. repeat split; [lia| |exact He].
        cbn [passes]. rewrite Hp. exact Hpk.
      * injection H as ->. exists 0%nat, prev. repeat split; [lia|exact Hp].
Qed.

End DriverProperties.

(** * Runs of the driver on rule tables of plain text *)

(** "가가" with the rule [aa,k0] to [xx,yy]. *)
Lemma driver_output_not_a_fixed_point :
  graph2prono re_sub_plain [lit "aa,k0"] [lit "xx,yy"] 1 [44032; 44032]
    = Some (Ok (lit "k0 aa k0 aa")) /\
  loop_pass re_sub_plain [lit "aa,k0"] [lit "xx,yy"] (lit "k0 aa k0 aa")
    <> Ok (lit "k0 aa k0 aa").
Proof. split; vm_compute; [reflexivity | discriminate]. Qed.



Lemma swap_table_loop (fuel : nat) :
  graph2prono_while re_sub_plain swap_in swap_out fuel (lit "k0 vv") = None /\
  graph2prono_while re_sub_plain swap_in swap_out fuel (lit "k0 aa") = None.
Proof.
  induction fuel as [|fuel [IH1 IH2]]; [split; reflexivity|].
  split.
  - rewrite (while_step_differ _ _ _ fuel (lit "k0 vv") (lit "k0 aa"))
      by (vm_compute; reflexivity).
    exact IH2.
  - rewrite (while_step_differ _ _ _ fuel (lit "k0 aa") (lit "k0 vv"))
      by (vm_compute; reflexivity).
    exact IH1.
Qed.

Lemma swap_table_never_stops :
  ~ exists fuel out,
      run_g2p re_sub_plain fuel [44032] (swap_in, swap_out) = Some out.
Proof.
  intros (fuel & out & H).
  unfold run_g2p, graph2prono in H.
  replace (first_pass re_sub_plain swap_in swap_out [44032])
    with (Ok (lit "k0 vv")) in H by (vm_compute; reflexivity).
  rewrite (proj1 (swap_table_loop fuel)) in H. discriminate.
Qed.

Lemma loop_without_agreement_keeps_running_witness :
  graph2prono_while re_sub_plain swap_in swap_out 2 (lit "k0 vv") = None.
Proof.
  apply (loop_without_agreement_keeps_running re_sub_plain swap_in swap_out
           2 (lit "k0 vv")).
  intros k Hk.
  destruct k as [|[|k]]; [| |lia].
  - exists (lit "k0 vv"), (lit "k0 aa").
    split; [vm_compute; reflexivity|].
    split; [vm_compute; reflexivity | vm_compute; discriminate].
  - exists (lit "k0 aa"), (lit "k0 vv").
    split; [vm_compute; reflexivity|].
    split; [vm_compute; reflexivity | vm_compute; discriminate].
Defined.

(** Some more runs.  A nucleus that ends in [o] before the coda [h0]
    spells [oh] inside a syllable ("좋"); two spaces before a syllable
    shift the pairs of [add_phone_boundary] ("  가"). *)
Lemma incidental_oh_and_shifted_pairs :
  graph2phone [51339] = Ok (lit "c0ooh0") /\
  graph2phone [32; 32; 44032] = Ok (lit "##k0aa") /\
  add_phone_boundary (lit "##k0aa") = Ok (lit "##k,0a,") /\
  run_g2p re_sub_plain 1 [32; 32; 44032] ([lit "zz"], [lit "zz"])
    = Some (Ok (lit "k 0a")).
Proof. repeat split; vm_compute; reflexivity. Qed.

(** * More on the decomposition *)

Lemma reencode (c : Z) :
  44032 + (iONS c - 1) * 588 + (iNUC c - 1) * 28 + (iCOD c - 1) = c.
Proof.
  unfold iONS, iNUC, iCOD, base.
  pose proof (Z.div_mod (c - 44032) 588 ltac:(lia)) as E1.
  pose proof (Z.div_mod ((c - 44032) mod 588) 28 ltac:(lia)) as E2.
  lia.
Qed.

(** X1.  Every triple of indices within the tables is the triple of a
    syllable: the code point [44032 + o*588 + n*28 + d] lies
    in the Hangul block and decomposes into the indices [o], [n], [d]. *)
Theorem indices_of_encoding (o n d : Z) :
  0 <= o < 19 -> 0 <= n < 21 -> 0 <= d < 28 ->
  let c := 44032 + o * 588 + n * 28 + d in
  is_hangul c = true /\
  iONS c - 1 = o /\ iNUC c - 1 = n /\ iCOD c - 1 = d.
Proof.
  intros Ho Hn Hd c.
  assert (Em : (c - 44032) mod 588 = n * 28 + d).
  { symmetry. apply (Z.mod_unique _ _ o); [left; lia | unfold c; lia]. }
  assert (Eq : (c - 44032) / 588 = o).
  { symmetry. apply (Z.div_unique _ _ _ (n * 28 + d)); [left; lia | unfold c; lia]. }
  repeat split.
  - unfold is_hangul. apply andb_true_iff. unfold c. lia.
  - unfold iONS, base. lia.
  - unfold iNUC, base. rewrite Em.
    assert ((n * 28 + d) / 28 = n); [|lia].
    symmetry. apply (Z.div_unique _ _ _ d); [left; lia | lia].
  - unfold iCOD, base. rewrite Em.
    assert ((n * 28 + d) mod 28 = d); [|lia].
    symmetry. apply (Z.mod_unique _ _ n); [left; lia | lia].
Qed.

Lemma indices_of_encoding_witness :
  iONS (44032 + 6 * 588 + 13 * 28 + 8) - 1 = 6.
Proof.
  apply (indices_of_encoding 6 13 8); lia.
Defined.

Lemma tables_NoDup : NoDup ONS /\ NoDup NUC /\ NoDup COD.
Proof.
  assert (D : forall l : list str,
             (fix nodup (l : list str) : bool :=
                match l with
                | [] => true
                | x :: r => negb (existsb (str_eqb x) r) && nodup r
                end) l = true -> NoDup l).
  { induction l as [|x r IH]; intros H; [constructor|].
    apply andb_true_iff in H. destruct H as [H1 H2].
    constructor; [|apply IH, H2].
    intros Hin. apply negb_true_iff in H1.
    assert (existsb (str_eqb x) r = true); [|congruence].
    apply existsb_exists. exists x. split; [exact Hin | apply str_eqb_eq; reflexivity]. }
  repeat split; apply D; vm_compute; reflexivity.
Qed.

Lemma py_index_nth_inj {A : Type} (l : list A) (i j : Z) (a : A) :
  NoDup l -> 0 <= i < Z.of_nat (List.length l) -> 0 <= j < Z.of_nat (List.length l) ->
  py_index l i = Ok a -> py_index l j = Ok a -> i = j.
Proof.
  intros Hnd Hi Hj Ei Ej.
  destruct (py_index_in_range l i Hi) as (a1 & E1 & N1).
  destruct (py_index_in_range l j Hj) as (a2 & E2 & N2).
  rewrite Ei in E1. rewrite Ej in E2.
  injection E1 as <-. injection E2 as <-.
  assert (Z.to_nat i = Z.to_nat j); [|lia].
  apply (proj1 (NoDup_nth_error l) Hnd).
  - apply nth_error_Some. congruence.
  - congruence.
Qed.

(** X2.  Two syllables of the Hangul block that decompose into the same
    onset, nucleus and coda codes are the same syllable. *)
Theorem decompose_injective (c1 c2 : Z) :
  is_hangul c1 = true -> is_hangul c2 = true ->
  decompose c1 = decompose c2 -> c1 = c2.
Proof.
  intros H1 H2 E.
  apply is_hangul_range in H1, H2.
  pose proof (index_ranges c1 H1) as (Ho1 & Hn1 & Hd1).
  pose proof (index_ranges c2 H2) as (Ho2 & Hn2 & Hd2).
  destruct tables_NoDup as (DO & DN & DC).
  unfold decompose in E.
  destruct (py_index_in_range ONS (iONS c1 - 1)) as (o1 & Eo1 & _); [cbn; lia|].
  destruct (py_index_in_range NUC (iNUC c1 - 1)) as (n1 & En1 & _); [cbn; lia|].
  destruct (py_index_in_range COD (iCOD c1 - 1)) as (d1 & Ed1 & _); [cbn; lia|].
  destruct (py_index_in_range ONS (iONS c2 - 1)) as (o2 & Eo2 & _); [cbn; lia|].
  destruct (py_index_in_range NUC (iNUC c2 - 1)) as (n2 & En2 & _); [cbn; lia|].
  destruct (py_index_in_range COD (iCOD c2 - 1)) as (d2 & Ed2 & _); [cbn; lia|].
  rewrite Eo1, En1, Ed1, Eo2, En2, Ed2 in E. cbn [bind] in E.
  injection E as -> -> ->.
  assert (iONS c1 - 1 = iONS c2 - 1)
    by (apply (py_index_nth_inj ONS _ _ o2 DO); cbn; auto; lia).
  assert (iNUC c1 - 1 = iNUC c2 - 1)
    by (apply (py_index_nth_inj NUC _ _ n2 DN); cbn; auto; lia).
  assert (iCOD c1 - 1 = iCOD c2 - 1)
    by (apply (py_index_nth_inj COD _ _ d2 DC); cbn; auto; lia).
  rewrite <- (reencode c1), <- (reencode c2). lia.
Qed.

Lemma decompose_injective_witness : 47932 = 47932.
Proof.
  apply (decompose_injective 47932 47932); reflexivity.
Defined.

(** * Properties of [add_space] *)

(** Induction on a string two characters at a time. *)
Lemma pair_ind (P : str -> Prop) :
  P [] -> (forall a, P [a]) -> (forall a b r, P r -> P (a :: b :: r)) ->
  forall s, P s.
Proof.
  intros H0 H1 H2.
  fix IH 1. intros [|a [|b r]]; [exact H0 | apply H1 | apply H2, IH].
Qed.

Lemma add_space_from_false (s : str) :
  forall acc,
    add_space_from false s acc =
    if Nat.even (List.length s)
    then Ok (acc ++ List.concat (map (fun p => (lit " " ++ p)%list) (pairs s)))%list
    else Raise IndexError.
Proof.
  induction s as [| a | a b r IH] using pair_ind; intros acc.
  - cbn. rewrite app_nil_r. reflexivity.
  - reflexivity.
  - cbn [add_space_from List.length Nat.even pairs map List.concat].
    rewrite IH. destruct (Nat.even (List.length r)); [|reflexivity].
    rewrite <- !app_assoc. reflexivity.
Qed.

Lemma join_cons (sep x : str) (l : list str) :
  str_join sep (x :: l) = (x ++ List.concat (map (fun p => (sep ++ p)%list) l))%list.
Proof.
  revert x. induction l as [|y l IH]; intros x.
  - cbn. rewrite app_nil_r. reflexivity.
  - change (str_join sep (x :: y :: l)) with (x ++ sep ++ str_join sep (y :: l))%list.
    rewrite (IH y). cbn [map List.concat]. rewrite <- !app_assoc. reflexivity.
Qed.

Lemma add_space_pairs (phones : str) :
  add_space phones =
  if Nat.even (List.length phones)
  then Ok (str_join (lit " ") (pairs phones))
  else Raise IndexError.
Proof.
  unfold add_space. destruct phones as [|a [|b r]]; try reflexivity.
  cbn [add_space_from List.length Nat.even pairs].
  rewrite add_space_from_false, join_cons.
  destruct (Nat.even (List.length r)); reflexivity.
Qed.

(** X3.  [add_space] returns exactly on the strings of even length, and
    then gives the pairs of the string separated by single spaces, with
    no space at either end; on a string of odd length it raises
    [IndexError]. *)
Theorem add_space_spec (phones : str) :
  add_space phones =
  if Nat.even (List.length phones)
  then Ok (str_join (lit " ") (pairs phones))
  else Raise IndexError.
Proof. apply add_space_pairs. Qed.

Lemma concat_pairs (s : str) :
  Nat.even (List.length s) = true -> List.concat (pairs s) = s.
Proof.
  induction s as [| a | a b r IH] using pair_ind; intros H.
  - reflexivity.
  - discriminate.
  - cbn [pairs List.concat app]. rewrite IH; [reflexivity | exact H].
Qed.

Lemma strip_spaces_join (l : list str) :
  Forall (fun p => ~ In " "%char p) l ->
  re_sub_lit (lit " ") [] (str_join (lit " ") l) = List.concat l.
Proof.
  change (lit " ") with [" "%char]. rewrite re_sub_lit_char.
  assert (F : forall p : str, ~ In " "%char p ->
            flat_map (fun x => if Ascii.eqb " " x then [] else [x]) p = p).
  { intros p. induction p as [|x p IHp]; intros Hp; [reflexivity|].
    cbn [flat_map]. destruct (Ascii.eqb " " x) eqn:E.
    - apply Ascii.eqb_eq in E. exfalso. apply Hp. left. symmetry. exact E.
    - cbn [app]. rewrite IHp; [reflexivity|]. intros Hin. apply Hp. right. exact Hin. }
  assert (G : forall l' : list str, Forall (fun p => ~ In " "%char p) l' ->
            flat_map (fun x => if Ascii.eqb " " x then [] else [x])
              (List.concat (map (fun p => ([" "%char] ++ p)%list) l')) = List.concat l').
  { intros l'. induction l' as [|y l' IHl]; intros Hl; [reflexivity|].
    inversion Hl as [|? ? Hy Hl']; subst.
    cbn [map List.concat]. rewrite flat_map_app, (IHl Hl'), flat_map_app, (F y Hy).
    cbn [flat_map]. rewrite Ascii.eqb_refl. reflexivity. }
  intros H. destruct l as [|x l]; [reflexivity|].
  inversion H as [|? ? Hx Hl]; subst.
  rewrite join_cons, flat_map_app, (F x Hx), (G l Hl). reflexivity.
Qed.

Lemma pairs_no_space (s : str) :
  ~ In " "%char s -> Forall (fun p => ~ In " "%char p) (pairs s).
Proof.
  induction s as [| a | a b r IH] using pair_ind; intros H; try constructor.
  - intros [E|[E|[]]]; apply H; [left | right; left]; exact E.
  - apply IH. intros Hin. apply H. right. right. exact Hin.
Qed.

(** X4.  On a string of even length that holds no space, deleting the
    spaces from the result of [add_space] gives the string back. *)
Theorem add_space_round_trip (phones : str) :
  Nat.even (List.length phones) = true ->
  ~ In " "%char phones ->
  exists spaced,
    add_space phones = Ok spaced /\
    re_sub_lit (lit " ") [] spaced = phones.
Proof.
  intros He Hs. rewrite add_space_pairs, He.
  eexists. split; [reflexivity|].
  rewrite strip_spaces_join by (apply pairs_no_space, Hs).
  apply concat_pairs, He.
Qed.

Lemma add_space_round_trip_witness :
  exists spaced,
    add_space (lit "k0aak0aa") = Ok spaced /\
    re_sub_lit (lit " ") [] spaced = lit "k0aak0aa".
Proof.
  apply (add_space_round_trip (lit "k0aak0aa")).
  - reflexivity.
  - vm_compute. intros H. repeat (destruct H as [H|H]; [discriminate|]). exact H.
Defined.

(** * Properties of [add_phone_boundary] *)

Lemma add_phone_boundary_from_acc (n : nat) :
  forall s acc, (List.length s <= n)%nat ->
    add_phone_boundary_from s acc =
    (r <- add_phone_boundary_from s [] ;; Ok (acc ++ r)%list).
Proof.
  induction n as [|n IH]; intros s acc Hlen.
  - destruct s; [cbn; rewrite app_nil_r; reflexivity | cbn in Hlen; lia].
  - destruct s as [|a [|b r]]; try (cbn; rewrite app_nil_r; reflexivity).
    cbn [add_phone_boundary_from].
    destruct (Ascii.eqb a "-" || Ascii.eqb a "#"); [|destruct (Ascii.eqb a " ")].
    + destruct r as [|c r']; [reflexivity|].
      rewrite (IH r' (acc ++ _)%list), (IH r' ([] ++ _)%list) by (cbn in Hlen; lia).
      destruct (add_phone_boundary_from r' []); cbn [bind app]; [|reflexivity].
      rewrite <- !app_assoc. reflexivity.
    + destruct r as [|c r']; [reflexivity|].
      rewrite (IH r' (acc ++ _)%list), (IH r' ([] ++ _)%list) by (cbn in Hlen; lia).
      destruct (add_phone_boundary_from r' []); cbn [bind app]; [|reflexivity].
      rewrite <- !app_assoc. reflexivity.
    + rewrite (IH r (acc ++ _)%list), (IH r ([] ++ _)%list) by (cbn in Hlen; lia).
      destruct (add_phone_boundary_from r []); cbn [bind app]; [|reflexivity].
      rewrite <- !app_assoc. reflexivity.
Qed.

Lemma add_phone_boundary_chunk (u : chunk) (rest : str) :
  chunk_ok u = true ->
  add_phone_boundary (chunk_text u ++ rest) =
  (r <- add_phone_boundary rest ;; Ok (chunk_out u ++ r)%list).
Proof.
  unfold add_phone_boundary. intros Hu.
  destruct u as [a b | m b c | b c]; cbn [chunk_ok chunk_text chunk_out app] in *.
  - apply andb_true_iff in Hu. destruct Hu as [Hm Hs].
    apply negb_true_iff in Hm, Hs. unfold is_marker in Hm.
    cbn [add_phone_boundary_from]. rewrite Hm, Hs.
    rewrite (add_phone_boundary_from_acc _ rest _ (le_n _)).
    destruct (add_phone_boundary_from rest []); reflexivity.
  - unfold is_marker in Hu. cbn [add_phone_boundary_from]. rewrite Hu.
    rewrite (add_phone_boundary_from_acc _ rest _ (le_n _)).
    destruct (add_phone_boundary_from rest []); reflexivity.
  - cbn [add_phone_boundary_from orb Ascii.eqb Bool.eqb andb].
    rewrite (add_phone_boundary_from_acc _ rest _ (le_n _)).
    destruct (add_phone_boundary_from rest []); reflexivity.
Qed.

Lemma add_phone_boundary_chunks (us : list chunk) (rest : str) :
  forallb chunk_ok us = true ->
  add_phone_boundary (List.concat (map chunk_text us) ++ rest) =
  (r <- add_phone_boundary rest ;; Ok (List.concat (map chunk_out us) ++ r)%list).
Proof.
  induction us as [|u us IH]; intros H.
  - cbn [map List.concat app]. destruct (add_phone_boundary rest); reflexivity.
  - cbn [forallb] in H. apply andb_true_iff in H. destruct H as [Hu Hus].
    cbn [map List.concat]. rewrite <- app_assoc.
    rewrite (add_phone_boundary_chunk u _ Hu), (IH Hus).
    destruct (add_phone_boundary rest); cbn [bind]; [|reflexivity].
    rewrite <- app_assoc. reflexivity.
Qed.

(** A string is a sequence of chunks followed either by at most one
    character, or by a marker or a space and one character. *)
Lemma chunks_parse (n : nat) :
  forall s, (List.length s <= n)%nat ->
    exists us, forallb chunk_ok us = true /\
      ((exists tail, (List.length tail <= 1)%nat /\
                     s = (List.concat (map chunk_text us) ++ tail)%list) \/
       (exists m x, marker_or_space m = true /\
                    s = (List.concat (map chunk_text us) ++ [m; x])%list)).
Proof.
  induction n as [|n IH]; intros s Hlen.
  - exists []. split; [reflexivity|]. left. exists s.
    split; [lia | reflexivity].
  - destruct s as [|a [|b r]].
    + exists []. split; [reflexivity|]. left. exists []. split; [cbn; lia | reflexivity].
    + exists []. split; [reflexivity|]. left. exists [a]. split; [cbn; lia | reflexivity].
    + destruct (marker_or_space a) eqn:Ha.
      * destruct r as [|c r'].
        -- exists []. split; [reflexivity|]. right. exists a, b. split; [exact Ha | reflexivity].
        -- destruct (IH r') as (us & Hus & Hs); [cbn in Hlen; lia|].
           unfold marker_or_space in Ha. destruct (is_marker a) eqn:Hm.
           ++ exists (Marked a b c :: us). split; [cbn [forallb chunk_ok]; rewrite Hm; exact Hus|].
              destruct Hs as [(tail & Ht & ->)|(m & x & Hmx & ->)];
                [left; exists tail | right; exists m, x]; split; auto.
           ++ cbn [orb] in Ha. apply Ascii.eqb_eq in Ha. subst a.
              exists (Spaced b c :: us). split; [exact Hus|].
              destruct Hs as [(tail & Ht & ->)|(m & x & Hmx & ->)];
                [left; exists tail | right; exists m, x]; split; auto.
      * destruct (IH r) as (us & Hus & Hs); [cbn in Hlen; lia|].
        unfold marker_or_space in Ha. apply orb_false_iff in Ha. destruct Ha as [Hm Hsp].
        exists (Plain a b :: us). split; [cbn [forallb chunk_ok]; rewrite Hm, Hsp; exact Hus|].
        destruct Hs as [(tail & Ht & ->)|(m & x & Hmx & ->)];
          [left; exists tail | right; exists m, x]; split; auto.
Qed.

Lemma add_phone_boundary_short (tail : str) :
  (List.length tail <= 1)%nat -> add_phone_boundary tail = Ok [].
Proof. destruct tail as [|a [|b r]]; cbn; intros H; try reflexivity; lia. Qed.

Lemma add_phone_boundary_cut (m x : ascii) :
  marker_or_space m = true -> add_phone_boundary [m; x] = Raise IndexError.
Proof.
  unfold marker_or_space, is_marker, add_phone_boundary. intros H.
  cbn [add_phone_boundary_from].
  destruct (Ascii.eqb m "-" || Ascii.eqb m "#"); [reflexivity|].
  cbn [orb] in H. rewrite H. reflexivity.
Qed.

(** X5.  On a string made of chunks (two characters, two characters
    after a marker ['-'] or ['#'], or two characters after a space) and
    at most one more character, [add_phone_boundary] returns the chunks
    each followed by a comma, the markers kept and the spaces dropped;
    the character left over is dropped. *)
Theorem add_phone_boundary_on_chunks (us : list chunk) (tail : str) :
  forallb chunk_ok us = true ->
  (List.length tail <= 1)%nat ->
  add_phone_boundary (List.concat (map chunk_text us) ++ tail) =
  Ok (List.concat (map chunk_out us)).
Proof.
  intros Hus Ht.
  rewrite (add_phone_boundary_chunks us tail Hus), (add_phone_boundary_short tail Ht).
  cbn [bind]. rewrite app_nil_r. reflexivity.
Qed.

Lemma add_phone_boundary_on_chunks_witness :
  add_phone_boundary (lit "k0aa-k0aa#mm uux") = Ok (lit "k0,aa,-k0,aa,#mm,uu,").
Proof.
  apply (add_phone_boundary_on_chunks
           [Plain "k" "0"; Plain "a" "a"; Marked "-" "k" "0"; Plain "a" "a";
            Marked "#" "m" "m"; Spaced "u" "u"] (lit "x")).
  - reflexivity.
  - cbn. lia.
Defined.

Lemma add_phone_boundary_raises_iff (s : str) (e : exn) :
  add_phone_boundary s = Raise e <->
  e = IndexError /\
  exists us m x,
    forallb chunk_ok us = true /\ marker_or_space m = true /\
    s = (List.concat (map chunk_text us) ++ [m; x])%list.
Proof.
  split.
  - intros H.
    destruct (chunks_parse _ s (le_n _)) as (us & Hus & [(tail & Ht & ->)|(m & x & Hm & ->)]).
    + rewrite (add_phone_boundary_chunks us tail Hus),
        (add_phone_boundary_short tail Ht) in H. discriminate.
    + rewrite (add_phone_boundary_chunks us _ Hus),
        (add_phone_boundary_cut m x Hm) in H.
      cbn [bind] in H. injection H as <-.
      split; [reflexivity|]. exists us, m, x. auto.
  - intros (-> & us & m & x & Hus & Hm & ->).
    rewrite (add_phone_boundary_chunks us _ Hus), (add_phone_boundary_cut m x Hm).
    reflexivity.
Qed.

(** X6.  [add_phone_boundary] raises exactly when the reading of the
    chunks ends on a marker or a space followed by a single character;
    the exception is [IndexError], and on every other string the function
    returns. *)
Theorem add_phone_boundary_raises_exactly (s : str) (e : exn) :
  add_phone_boundary s = Raise e <->
  e = IndexError /\
  exists us m x,
    forallb chunk_ok us = true /\ marker_or_space m = true /\
    s = (List.concat (map chunk_text us) ++ [m; x])%list.
Proof. apply add_phone_boundary_raises_iff. Qed.

(** * More on the phone stream builder *)

Lemma walk_filter (l : list Z) :
  forall phones,
    walk_inv phones ->
    graph2phone_walk (combine l (check_char_type l)) phones =
    graph2phone_walk
      (combine (filter is_graph l) (check_char_type (filter is_graph l))) phones.
Proof.
  induction l as [|c l IH]; intros phones Hinv; [reflexivity|].
  destruct (walk_step phones c Hinv) as (phones1 & E & Hinv1).
  change (graph2phone_walk (combine (c :: l) (check_char_type (c :: l))) phones)
    with (phones1 <- emit phones c (char_type c) ;;
          graph2phone_walk (combine l (check_char_type l))
            (re_sub_lit (lit "-oh") (lit "-") phones1)).
  rewrite E. cbn [bind filter]. rewrite (IH _ Hinv1).
  destruct (is_graph c) eqn:G.
  - change (graph2phone_walk
              (combine (c :: filter is_graph l)
                 (check_char_type (c :: filter is_graph l))) phones)
      with (phones1 <- emit phones c (char_type c) ;;
            graph2phone_walk
              (combine (filter is_graph l) (check_char_type (filter is_graph l)))
              (re_sub_lit (lit "-oh") (lit "-") phones1)).
    rewrite E. reflexivity.
  - unfold is_graph in G. apply orb_false_iff in G. destruct G as [G1 G2].
    unfold emit, char_type in E. rewrite G1, G2 in E.
    cbn in E. injection E as <-.
    destruct Hinv as [_ HD].
    change (lit "-oh") with ("-"%char :: lit "oh").
    rewrite (re_sub_lit_absent _ _ _ phones (scan_clean_contains _ _ HD)).
    reflexivity.
Qed.

(** X7.  [graph2phone] gives the same result on a string and on the
    string without its characters that are neither a space nor a Hangul
    syllable: digits, Latin letters and punctuation leave no trace, not
    even a marker. *)
Theorem graph2phone_ignores_other_characters (integers : list Z) :
  graph2phone integers = graph2phone (filter is_graph integers).
Proof.
  unfold graph2phone. rewrite (walk_filter integers []); [reflexivity|].
  split; [reflexivity | discriminate].
Qed.

Lemma not_in_contains (x : ascii) (pat s : str) :
  ~ In x s -> contains (x :: pat) s = false.
Proof.
  induction s as [|c s IH]; intros H; [reflexivity|].
  cbn [contains prefixb].
  destruct (Ascii.eqb x c) eqn:E.
  - apply Ascii.eqb_eq in E. exfalso. apply H. left. symmetry. exact E.
  - cbn [andb orb]. apply IH. intros Hin. apply H. right. exact Hin.
Qed.

Lemma not_in_sub_bol (x : ascii) (pat s : str) :
  ~ In x s -> re_sub_bol (x :: pat) s = s.
Proof.
  intros H. unfold re_sub_bol. destruct s as [|c s]; [reflexivity|].
  cbn [prefixb]. destruct (Ascii.eqb x c) eqn:E; [|reflexivity].
  apply Ascii.eqb_eq in E. exfalso. apply H. left. symmetry. exact E.
Qed.

Lemma not_in_sub_oh_end (s : str) :
  ~ In "o"%char s -> re_sub_oh_end s = s.
Proof.
  induction s as [|a r IH]; intros H; [reflexivity|].
  assert (Ea : Ascii.eqb a "o" = false).
  { destruct (Ascii.eqb a "o") eqn:E; [|reflexivity].
    apply Ascii.eqb_eq in E. exfalso. apply H. left. exact E. }
  cbn [re_sub_oh_end]. rewrite Ea. cbn [andb].
  destruct r as [|b t]; [reflexivity|].
  rewrite IH; [reflexivity|]. intros Hin. apply H. right. exact Hin.
Qed.

Lemma not_in_sub_nonword_dash (s : str) :
  forall inrun, ~ In "-"%char s -> sub_nonword_dash_from inrun s = s.
Proof.
  induction s as [|c r IH]; intros inrun H; [reflexivity|].
  assert (Ec : Ascii.eqb c "-" = false).
  { destruct (Ascii.eqb c "-") eqn:E; [|reflexivity].
    apply Ascii.eqb_eq in E. exfalso. apply H. left. exact E. }
  assert (Hr : ~ In "-"%char r) by (intros Hin; apply H; right; exact Hin).
  cbn [sub_nonword_dash_from]. rewrite Ec, andb_false_r. cbn [andb].
  destruct (is_word c); rewrite IH by exact Hr; reflexivity.
Qed.

Lemma drop_while_all (f : ascii -> bool) (s : str) :
  forallb f s = true -> drop_while f s = [].
Proof.
  induction s as [|c s IH]; intros H; [reflexivity|].
  cbn [forallb] in H. apply andb_true_iff in H. destruct H as [Hc Hs].
  cbn [drop_while]. rewrite Hc. apply IH, Hs.
Qed.

Lemma walk_spaces (l : list Z) :
  forall phones,
    Forall (fun c => is_hangul c = false) l ->
    forallb (Ascii.eqb "#") phones = true ->
    exists p, graph2phone_walk (combine l (check_char_type l)) phones = Ok p /\
              forallb (Ascii.eqb "#") p = true.
Proof.
  induction l as [|c l IH]; intros phones Hl Hp.
  - exists phones. split; [reflexivity | exact Hp].
  - inversion Hl as [|? ? Hc Hl']; subst.
    assert (Hsub : forall q, forallb (Ascii.eqb "#") q = true ->
                     re_sub_lit (lit "-oh") (lit "-") q = q).
    { intros q Hq. change (lit "-oh") with ("-"%char :: lit "oh").
      apply re_sub_lit_absent, not_in_contains.
      intros Hin. rewrite forallb_forall in Hq. specialize (Hq _ Hin). discriminate. }
    assert (E : emit phones c (char_type c) =
                Ok (if c =? 32 then phones ++ lit "#" else phones)%list).
    { unfold emit, char_type. rewrite Hc. destruct (c =? 32); reflexivity. }
    change (graph2phone_walk (combine (c :: l) (check_char_type (c :: l))) phones)
      with (phones1 <- emit phones c (char_type c) ;;
            graph2phone_walk (combine l (check_char_type l))
              (re_sub_lit (lit "-oh") (lit "-") phones1)).
    rewrite E. cbn [bind].
    assert (Hp1 : forallb (Ascii.eqb "#")
                    (if c =? 32 then phones ++ lit "#" else phones)%list = true).
    { destruct (c =? 32); [rewrite forallb_app, Hp; reflexivity | exact Hp]. }
    rewrite (Hsub _ Hp1). apply IH; assumption.
Qed.

(** X8.  On a string without any Hangul syllable (the empty string, or
    spaces, digits, Latin letters and punctuation only) [graph2phone]
    returns the empty string. *)
Theorem graph2phone_without_hangul (integers : list Z) :
  Forall (fun c => is_hangul c = false) integers ->
  graph2phone integers = Ok [].
Proof.
  intros H. unfold graph2phone.
  destruct (walk_spaces integers [] H eq_refl) as (p & E & Hp).
  rewrite E. cbn [bind]. f_equal.
  assert (N : forall x : ascii, x <> "#"%char -> ~ In x p).
  { intros x Hx Hin. rewrite forallb_forall in Hp. specialize (Hp _ Hin).
    apply Ascii.eqb_eq in Hp. congruence. }
  unfold graph2phone_cleanup.
  change (lit "oh") with ("o"%char :: lit "h").
  change (lit "-oh") with ("-"%char :: lit "oh").
  change (lit "oh-") with ("o"%char :: lit "h-").
  rewrite (not_in_sub_bol "o" _ p) by (apply N; discriminate).
  rewrite (re_sub_lit_absent "-" _ _ p) by (apply not_in_contains, N; discriminate).
  rewrite (re_sub_lit_absent "o" _ _ p) by (apply not_in_contains, N; discriminate).
  rewrite (not_in_sub_oh_end p) by (apply N; discriminate).
  unfold re_sub_nonword_dash.
  rewrite (not_in_sub_nonword_dash p) by (apply N; discriminate).
  unfold re_sub_nonword_eol. rewrite drop_while_all; [reflexivity|].
  apply forallb_forall. intros x Hx. apply in_rev in Hx.
  rewrite forallb_forall in Hp. specialize (Hp _ Hx).
  apply Ascii.eqb_eq in Hp. subst x. reflexivity.
Qed.

Lemma graph2phone_without_hangul_witness :
  graph2phone [32; 49; 32; 97; 46] = Ok [].
Proof.
  apply graph2phone_without_hangul.
  repeat constructor.
Defined.

Lemma syllable_cleanup_table :
  forallb (fun o => forallb (fun n => forallb (fun d =>
    str_eqb
      (graph2phone_cleanup
         (re_sub_lit (lit "-oh") (lit "-") (lit "-" ++ o ++ n ++ d)))
      (syllable_phones o n d))
    COD) NUC) ONS = true.
Proof. vm_compute. reflexivity. Qed.

(** X9.  The phone string of a single Hangul syllable is its onset code,
    left out when it is the null onset [oh], then its nucleus code, then
    its coda code, [ng] standing for the coda [oh]; it holds no marker. *)
Theorem graph2phone_single_syllable (c : Z) :
  is_hangul c = true ->
  exists o n d,
    decompose c = Ok (o, n, d) /\
    graph2phone [c] = Ok (syllable_phones o n d).
Proof.
  intros Hc.
  destruct (decompose_ok c (is_hangul_range c Hc)) as (o & n & d & E & Ho & Hn & Hd).
  exists o, n, d. split; [exact E|].
  assert (H32 : (c =? 32) = false).
  { apply is_hangul_range in Hc. apply Z.eqb_neq. lia. }
  unfold graph2phone, check_char_type. cbn [map combine graph2phone_walk].
  unfold emit, char_type, syllable. rewrite H32, Hc, E.
  cbn [Z.eqb bind app]. f_equal.
  pose proof syllable_cleanup_table as T.
  rewrite forallb_forall in T. specialize (T o Ho).
  rewrite forallb_forall in T. specialize (T n Hn).
  rewrite forallb_forall in T. specialize (T d Hd).
  apply str_eqb_eq in T. rewrite <- T. rewrite <- app_assoc. reflexivity.
Qed.

Lemma graph2phone_single_syllable_witness :
  exists o n d,
    decompose 44053 = Ok (o, n, d) /\
    graph2phone [44053] = Ok (syllable_phones o n d).
Proof.
  apply (graph2phone_single_syllable 44053). reflexivity.
Defined.

(** * The runs of word characters of the phone stream *)

Lemma runs_cons q c s : runs q (c :: s) = runs (run_step q c) s.
Proof. reflexivity. Qed.

Lemma runs_app q a b : runs q (a ++ b) = runs (runs q a) b.
Proof. apply fold_left_app. Qed.

Lemma runs_Short s : runs Short s = Short.
Proof. induction s as [|c s IH]; [reflexivity | exact IH]. Qed.

Lemma ahead_step q q' c :
  ahead q q' -> run_step q c <> Short -> ahead (run_step q c) (run_step q' c).
Proof.
  intros [->|[[-> ->]|[-> ->]]] H; [left; reflexivity| |];
    cbn [run_step] in *; destruct (is_word c); unfold ahead; auto; congruence.
Qed.

Lemma runs_good_start q s : run_good (runs q s) = true -> q <> Short.
Proof. intros H ->. rewrite runs_Short in H. discriminate. Qed.

Lemma runs_ahead (s : str) :
  forall q q', ahead q q' -> run_good (runs q s) = true -> run_good (runs q' s) = true.
Proof.
  induction s as [|c s IH]; intros q q' Ha H.
  - destruct Ha as [->|[[-> ->]|[-> ->]]]; auto.
  - rewrite runs_cons in *. apply (IH (run_step q c)); [|exact H].
    apply ahead_step; [exact Ha | apply (runs_good_start _ _ H)].
Qed.

Lemma runs_two_word q a b :
  q <> Short -> is_word a = true -> is_word b = true -> runs q [a; b] = Many.
Proof.
  intros Hq Ha Hb. unfold runs. cbn [fold_left].
  destruct q; cbn [run_step]; rewrite ?Ha; cbn [run_step]; rewrite ?Hb; congruence.
Qed.

Lemma sub_oh_dash_runs (n : nat) :
  forall s q, (List.length s <= n)%nat ->
    runs q (re_sub_lit (lit "oh-") (lit "ng-") s) = runs q s.
Proof.
  induction n as [|n IH]; intros s q Hlen.
  - destruct s; [reflexivity | cbn in Hlen; lia].
  - destruct s as [|c r]; [reflexivity|].
    change (lit "oh-") with ("o"%char :: lit "h-") in *.
    rewrite re_sub_lit_cons.
    destruct (prefixb ("o"%char :: lit "h-") (c :: r)) eqn:P.
    + apply prefixb_skipn in P.
      change (skipn (List.length ("o"%char :: lit "h-")) (c :: r))
        with (skipn (List.length (lit "h-")) r) in P.
      remember (skipn (List.length (lit "h-")) r) as rest eqn:Erest.
      clear Erest. rewrite P.
      assert (Hr : (List.length rest <= n)%nat).
      { apply (f_equal (@List.length ascii)) in P. cbn in P, Hlen. lia. }
      rewrite !runs_app, (IH rest _ Hr).
      reflexivity.
    + rewrite !runs_cons. apply IH. cbn in Hlen. lia.
Qed.

Lemma sub_oh_end_runs (n : nat) :
  forall s q q', (List.length s <= n)%nat ->
    ahead q q' ->
    run_good (runs q s) = true -> run_good (runs q' (re_sub_oh_end s)) = true.
Proof.
  induction n as [|n IH]; intros s q q' Hlen Ha H.
  - destruct s; [exact (runs_ahead [] q q' Ha H) | cbn in Hlen; lia].
  - destruct s as [|a r]; [exact (runs_ahead [] q q' Ha H)|].
    destruct r as [|b t]; [exact (runs_ahead [a] q q' Ha H)|].
    cbn [re_sub_oh_end].
    assert (Hq : q <> Short) by (apply (runs_good_start _ _ H)).
    assert (Hdefault : run_good (runs q' (a :: re_sub_oh_end (b :: t))) = true).
    { rewrite runs_cons in H |- *.
      apply (IH _ (run_step q a)); [cbn in Hlen |- *; lia | | exact H].
      apply ahead_step; [exact Ha | apply (runs_good_start _ _ H)]. }
    destruct (Ascii.eqb a "o" && Ascii.eqb b "h") eqn:Eoh; [|exact Hdefault].
    apply andb_true_iff in Eoh. destruct Eoh as [Ea Eb].
    apply Ascii.eqb_eq in Ea, Eb. subst a b.
    assert (Hq' : q' <> Short).
    { destruct Ha as [->|[[_ ->]|[_ ->]]]; [exact Hq | discriminate | discriminate]. }
    change (lit "ng") with ["n"%char; "g"%char].
    destruct t as [|c t'].
    + rewrite (runs_two_word q' "n" "g" Hq' eq_refl eq_refl). reflexivity.
    + destruct (Ascii.eqb c "#" || Ascii.eqb c " ") eqn:Ec.
      * rewrite runs_app, (runs_two_word q' "n" "g" Hq' eq_refl eq_refl).
        change ("o"%char :: "h"%char :: c :: t') with (["o"%char; "h"%char] ++ c :: t')%list in H.
        rewrite runs_app, (runs_two_word q "o" "h" Hq eq_refl eq_refl), runs_cons in H.
        assert (Hc : run_step Many c = Out).
        { apply orb_true_iff in Ec. destruct Ec as [Ec|Ec];
            apply Ascii.eqb_eq in Ec; subst c; reflexivity. }
        rewrite Hc in H.
        apply (IH t' Out Many); [cbn in Hlen; lia | right; left; auto | exact H].
      * destruct (Ascii.eqb c "010" && match t' with [] => true | _ :: _ => false end) eqn:En;
          [|exact Hdefault].
        apply andb_true_iff in En. destruct En as [En Et].
        apply Ascii.eqb_eq in En. subst c. destruct t'; [|discriminate].
        destruct q'; cbn; congruence.
Qed.

Lemma sub_nonword_dash_runs (s : str) :
  forall inrun q,
    (inrun = true -> q = Out \/ q = Short) ->
    runs q (sub_nonword_dash_from inrun s) = runs q s.
Proof.
  induction s as [|c r IH]; intros inrun q Hrun; [reflexivity|].
  cbn [sub_nonword_dash_from].
  destruct (is_word c) eqn:W.
  - rewrite !runs_cons. apply IH. discriminate.
  - assert (Hnext : run_step q c = Out \/ run_step q c = Short).
    { destruct q; cbn [run_step]; rewrite ?W; auto. }
    destruct (inrun && Ascii.eqb c "-" && negb (dash_in_run r)) eqn:D.
    + apply andb_true_iff in D. destruct D as [D _].
      apply andb_true_iff in D. destruct D as [Di _]. subst inrun.
      rewrite runs_cons.
      destruct (Hrun eq_refl) as [->| ->].
      * cbn [run_step]. rewrite W. apply IH. auto.
      * rewrite !runs_Short. reflexivity.
    + rewrite !runs_cons. apply IH. intros _. exact Hnext.
Qed.

Lemma drop_while_spec (f : ascii -> bool) (l : str) :
  exists pre,
    l = (pre ++ drop_while f l)%list /\ forallb f pre = true /\
    match drop_while f l with [] => True | x :: _ => f x = false end.
Proof.
  induction l as [|c l (pre & E & Hpre & Hd)].
  - exists []. repeat split.
  - cbn [drop_while]. destruct (f c) eqn:Fc.
    + exists (c :: pre). repeat split; [cbn; f_equal; exact E | cbn; rewrite Fc; exact Hpre | exact Hd].
    + exists []. repeat split. exact Fc.
Qed.

Lemma runs_nonword q s :
  forallb (fun c => negb (is_word c)) s = true ->
  runs q s = match s with [] => q | _ => match q with One | Short => Short | _ => Out end end.
Proof.
  revert q. induction s as [|c s IH]; intros q H; [reflexivity|].
  cbn [forallb] in H. apply andb_true_iff in H. destruct H as [Hc Hs].
  apply negb_true_iff in Hc.
  rewrite runs_cons, (IH _ Hs).
  destruct s; destruct q; cbn [run_step]; rewrite ?Hc; reflexivity.
Qed.

Lemma sub_nonword_eol_runs (s : str) :
  run_good (runs Out s) = true -> ends_in_run (re_sub_nonword_eol s).
Proof.
  intros H. unfold re_sub_nonword_eol.
  destruct (drop_while_spec (fun c => negb (is_word c)) (rev s)) as (pre & E & Hpre & Hd).
  destruct (drop_while (fun c => negb (is_word c)) (rev s)) as [|x t] eqn:D;
    [left; reflexivity|].
  right. apply negb_false_iff in Hd.
  assert (Es : s = (rev t ++ [x] ++ rev pre)%list).
  { rewrite <- (rev_involutive s), E, rev_app_distr. cbn [rev].
    rewrite <- app_assoc. reflexivity. }
  cbn [rev]. rewrite Es in H. rewrite !runs_app in H. rewrite runs_app.
  assert (Hpre' : forallb (fun c => negb (is_word c)) (rev pre) = true).
  { apply forallb_forall. intros y Hy. apply in_rev in Hy.
    rewrite forallb_forall in Hpre. apply Hpre, Hy. }
  rewrite (runs_nonword _ _ Hpre') in H.
  cbn [runs fold_left] in H |- *.
  destruct (runs Out (rev t)); cbn [run_step] in *; rewrite ?Hd in *;
    destruct (rev pre); try reflexivity; discriminate.
Qed.

Lemma sub_bol_dash_runs (s : str) :
  ends_in_run s -> ends_in_run (re_sub_bol (lit "-") s).
Proof.
  intros H. unfold re_sub_bol.
  destruct (prefixb (lit "-") s) eqn:P; [|exact H].
  apply prefixb_skipn in P. cbn [List.length lit list_ascii_of_string] in P.
  destruct H as [->|H]; [left; reflexivity|].
  right. rewrite P in H. exact H.
Qed.

Lemma cleanup_runs (phones : str) :
  scan Dash phones <> Found ->
  run_good (runs Out phones) = true ->
  ends_in_run (graph2phone_cleanup phones).
Proof.
  intros HD H. unfold graph2phone_cleanup.
  rewrite (sub_bol_oh_clean phones HD).
  change (lit "-oh") with ("-"%char :: lit "oh").
  rewrite (re_sub_lit_absent _ _ _ phones (scan_clean_contains _ _ HD)).
  apply sub_bol_dash_runs, sub_nonword_eol_runs.
  unfold re_sub_nonword_dash. rewrite sub_nonword_dash_runs by discriminate.
  apply (sub_oh_end_runs _ _ Out Out (le_n _)); [left; reflexivity|].
  rewrite (sub_oh_dash_runs _ _ _ (le_n _)). exact H.
Qed.

Lemma syllable_tokens_runs :
  forallb (fun o => forallb (fun n => forallb (fun d =>
    run_good (runs Out (re_sub_lit (lit "-oh") (lit "-") (lit "-" ++ o ++ n ++ d))))
    COD) NUC) ONS = true.
Proof. vm_compute. reflexivity. Qed.

Lemma emit_cases (phones : str) (c : Z) (phones1 : str) :
  emit phones c (char_type c) = Ok phones1 ->
  phones1 = phones \/ phones1 = (phones ++ lit "#")%list \/
  exists o n d, In o ONS /\ In n NUC /\ In d COD /\
                phones1 = (phones ++ lit "-" ++ o ++ n ++ d)%list.
Proof.
  unfold emit, char_type.
  destruct (c =? 32); [|destruct (is_hangul c) eqn:Eh].
  - intros H. injection H as <-. right. left. reflexivity.
  - change (0 =? 0) with true. cbv iota.
    destruct (decompose_ok c (is_hangul_range c Eh)) as (o & n & d & E & Ho & Hn & Hd).
    unfold syllable. rewrite E. cbn [bind]. intros H. injection H as <-.
    right. right. exists o, n, d. repeat split; auto.
  - intros H. injection H as <-. left. reflexivity.
Qed.

Lemma runs_token (q : run_state) (t : str) :
  run_good q = true -> token_ok t = true -> runs q t = runs Out t.
Proof.
  intros Hq Ht. destruct t as [|m t]; [discriminate|].
  cbn [token_ok] in Ht. apply andb_true_iff in Ht. destruct Ht as [Hm _].
  rewrite !runs_cons. f_equal.
  apply orb_true_iff in Hm.
  destruct Hm as [E|E]; apply Ascii.eqb_eq in E; subst m;
    destruct q; try discriminate; reflexivity.
Qed.

Lemma walk_step_runs (phones : str) (c : Z) :
  walk_inv phones -> run_good (runs Out phones) = true ->
  exists phones1,
    emit phones c (char_type c) = Ok phones1 /\
    walk_inv (re_sub_lit (lit "-oh") (lit "-") phones1) /\
    run_good (runs Out (re_sub_lit (lit "-oh") (lit "-") phones1)) = true.
Proof.
  intros Hinv Hr.
  destruct (walk_step phones c Hinv) as (phones1 & E & Hinv1).
  exists phones1. split; [exact E|]. split; [exact Hinv1|].
  pose proof Hinv as [HI HD].
  destruct (emit_cases _ _ _ E) as [->|[->|(o & n & d & Ho & Hn & Hd & ->)]].
  - change (lit "-oh") with ("-"%char :: lit "oh").
    rewrite (re_sub_lit_absent _ _ _ phones (scan_clean_contains _ _ HD)). exact Hr.
  - rewrite (sub_dash_oh_app _ phones _ Idle HI), runs_app.
    rewrite (runs_token _ _ Hr); reflexivity.
  - rewrite (sub_dash_oh_app _ phones _ Idle HI), runs_app.
    pose proof syllable_tokens_ok as T.
    rewrite forallb_forall in T. specialize (T o Ho).
    rewrite forallb_forall in T. specialize (T n Hn).
    rewrite forallb_forall in T. specialize (T d Hd).
    pose proof syllable_tokens_runs as R.
    rewrite forallb_forall in R. specialize (R o Ho).
    rewrite forallb_forall in R. specialize (R n Hn).
    rewrite forallb_forall in R. specialize (R d Hd).
    rewrite (runs_token _ _ Hr T). exact R.
Qed.

Lemma walk_total_runs (integers : list Z) :
  forall phones,
    walk_inv phones -> run_good (runs Out phones) = true ->
    exists p, graph2phone_walk (combine integers (check_char_type integers)) phones = Ok p /\
              walk_inv p /\ run_good (runs Out p) = true.
Proof.
  induction integers as [|c l IH]; intros phones Hinv Hr.
  - exists phones. auto.
  - destruct (walk_step_runs phones c Hinv Hr) as (phones1 & E & Hinv1 & Hr1).
    change (graph2phone_walk (combine (c :: l) (check_char_type (c :: l))) phones)
      with (phones1 <- emit phones c (char_type c) ;;
            graph2phone_walk (combine l (check_char_type l))
              (re_sub_lit (lit "-oh") (lit "-") phones1)).
    rewrite E. cbn [bind]. apply IH; assumption.
Qed.

Lemma graph2phone_ends_in_run (integers : list Z) :
  exists p, graph2phone integers = Ok p /\ ends_in_run p.
Proof.
  destruct (walk_total_runs integers []) as (p & E & [_ HD] & Hr);
    [split; [reflexivity | discriminate] | reflexivity |].
  unfold graph2phone. rewrite E. cbn [bind].
  eexists. split; [reflexivity|]. apply cleanup_runs; assumption.
Qed.

Lemma runs_Many_end (s : str) :
  runs Out s = Many ->
  exists s' a b, s = (s' ++ [a; b])%list /\ is_word a = true /\ is_word b = true.
Proof.
  intros H.
  destruct s as [|x s0] using rev_ind; [discriminate|]. clear IHs0.
  rename s0 into s1, x into b.
  rewrite runs_app in H. cbn [runs fold_left] in H.
  assert (Hb : is_word b = true /\ (runs Out s1 = One \/ runs Out s1 = Many)).
  { destruct (runs Out s1); cbn [run_step] in H; destruct (is_word b);
      try discriminate; auto. }
  destruct Hb as [Hb H1].
  destruct s1 as [|a s2] using rev_ind; [cbn in H1; destruct H1; discriminate|].
  clear IHs2. rewrite runs_app in H1. cbn [runs fold_left] in H1.
  assert (Ha : is_word a = true).
  { destruct (runs Out s2); cbn [run_step] in H1; destruct (is_word a);
      destruct H1; try discriminate; auto. }
  exists s2, a, b. rewrite <- app_assoc. auto.
Qed.

(** X10.  For every input, the phone string that [graph2phone] returns is
    empty or ends with two word characters: after the cleanup it never
    ends with a marker, nor with a single character after a marker. *)
Theorem graph2phone_ends_with_a_code (integers : list Z) :
  exists phones,
    graph2phone integers = Ok phones /\
    (phones = [] \/
     exists front a b,
       phones = (front ++ [a; b])%list /\ is_word a = true /\ is_word b = true).
Proof.
  destruct (graph2phone_ends_in_run integers) as (p & E & [->|H]).
  - exists []. auto.
  - exists p. split; [exact E|]. right. apply runs_Many_end, H.
Qed.

Lemma add_phone_boundary_of_graph2phone (integers : list Z) :
  exists phones bd,
    graph2phone integers = Ok phones /\ add_phone_boundary phones = Ok bd.
Proof.
  destruct (graph2phone_ends_in_run integers) as (p & E & Hp).
  exists p.
  destruct (add_phone_boundary p) as [bd|e] eqn:A; [exists bd; auto|].
  exfalso. apply add_phone_boundary_raises_iff in A.
  destruct A as (_ & us & m & x & _ & Hm & Es).
  destruct Hp as [->|Hp].
  - destruct (List.concat (map chunk_text us)); discriminate.
  - apply runs_Many_end in Hp. destruct Hp as (s' & a & b & Es' & Ha & _).
    rewrite Es' in Es.
    change [a; b] with ([a] ++ [b])%list in Es.
    change [m; x] with ([m] ++ [x])%list in Es.
    rewrite !app_assoc in Es.
    apply app_inj_tail in Es. destruct Es as [Es _].
    apply app_inj_tail in Es. destruct Es as [_ ->].
    unfold marker_or_space, is_marker in Hm.
    apply orb_true_iff in Hm. destruct Hm as [Hm|Hm];
      [apply orb_true_iff in Hm; destruct Hm as [Hm|Hm]|];
      apply Ascii.eqb_eq in Hm; subst m; discriminate.
Qed.

(** X11.  On every [str] argument, given by its code points,
    [graph2phone] returns, and [add_phone_boundary] returns on the phone
    string that it builds. *)
Theorem add_phone_boundary_total_on_phones (integers : list Z) :
  exists phones bd,
    graph2phone integers = Ok phones /\ add_phone_boundary phones = Ok bd.
Proof. apply add_phone_boundary_of_graph2phone. Qed.

(** * More on the rule engine and on the driver *)

(** X12.  On a rule table with at least one rule, one call of the rule
    engine is the fold of the rules over the phone string, from the first
    rule to the last, each rule on the result of the rule before; an
    exception of a rule ends the fold. *)
Theorem phone2prono_fold_nonempty
        (re_sub : str -> str -> str -> result str)
        (phones : str) (rule_in rule_out : list str) :
  combine rule_in rule_out <> [] ->
  phone2prono re_sub phones rule_in rule_out =
  fold_rules re_sub (combine rule_in rule_out) phones.
Proof. apply phone2prono_is_fold. Qed.

Lemma phone2prono_fold_nonempty_witness :
  phone2prono re_sub_plain (lit "k0,aa,") [lit "aa"; lit "k0"] [lit "vv"; lit "kk"]
  = fold_rules re_sub_plain [(lit "aa", lit "vv"); (lit "k0", lit "kk")] (lit "k0,aa,").
Proof.
  apply (phone2prono_fold_nonempty re_sub_plain (lit "k0,aa,")
           [lit "aa"; lit "k0"] [lit "vv"; lit "kk"]).
  discriminate.
Defined.

Lemma normalize_reannotate (p : str) :
  normalize_loop (reannotate p) = re_sub_lit (lit ",") (lit " ") p.
Proof.
  unfold normalize_loop, reannotate.
  assert (E : re_sub_lit (lit ",") (lit " ")
                (re_sub_lit (lit " ") (lit ",") (p ++ lit ","))
              = (re_sub_lit (lit ",") (lit " ") p ++ lit " ")%list).
  { change (lit ",") with [","%char]. change (lit " ") with [" "%char].
    rewrite !re_sub_lit_char.
    induction p as [|x p IH]; [reflexivity|].
    cbn [app flat_map]. rewrite flat_map_app, IH.
    destruct (Ascii.eqb " " x) eqn:E1.
    - apply Ascii.eqb_eq in E1. subst x. reflexivity.
    - cbn [flat_map]. rewrite app_nil_r.
      destruct (Ascii.eqb "," x); reflexivity. }
  rewrite E. unfold re_sub_space_eol.
  rewrite rev_app_distr. cbn [lit list_ascii_of_string rev app].
  rewrite Ascii.eqb_refl. apply rev_involutive.
Qed.

Lemma commas_to_spaces_id (p : str) :
  ~ In ","%char p -> re_sub_lit (lit ",") (lit " ") p = p.
Proof.
  intros H. change (lit ",") with (","%char :: []).
  apply re_sub_lit_absent, not_in_contains, H.
Qed.

Lemma commas_to_spaces_no_comma (p : str) :
  ~ In ","%char (re_sub_lit (lit ",") (lit " ") p).
Proof.
  change (lit ",") with [","%char]. rewrite re_sub_lit_char.
  intros H. apply in_flat_map in H. destruct H as (y & _ & H).
  destruct (Ascii.eqb "," y) eqn:E.
  - destruct H as [H|[]]. discriminate.
  - destruct H as [H|[]]. subst y. rewrite Ascii.eqb_refl in E. discriminate.
Qed.

Lemma space_eol_subset (x : ascii) (s : str) :
  In x (re_sub_space_eol s) -> In x s.
Proof.
  unfold re_sub_space_eol.
  destruct (rev s) as [|c r] eqn:E; [auto|].
  apply rev_cons_inv in E.
  destruct (Ascii.eqb c " ").
  - intros H. rewrite E. apply in_or_app. left. exact H.
  - destruct r as [|d r']; [auto|].
    destruct (Ascii.eqb c "010" && Ascii.eqb d " "); [|auto].
    intros H. rewrite E. cbn [rev] in *.
    apply in_app_or in H. destruct H as [H|H].
    + apply in_or_app. left. apply in_or_app. left. exact H.
    + apply in_or_app. right. exact H.
Qed.

Lemma normalize_loop_no_comma (s : str) : ~ In ","%char (normalize_loop s).
Proof.
  unfold normalize_loop. intros H. apply space_eol_subset in H.
  exact (commas_to_spaces_no_comma _ H).
Qed.

Lemma strip_boundaries_subset (x : ascii) (s : str) :
  In x (strip_boundaries s) -> In x s.
Proof. rewrite strip_boundaries_spec. intros H. apply filter_In in H. tauto. Qed.

(** X13.  Re-annotating a string (spaces to commas, a comma appended) and
    normalizing it as the loop does gives the string with its commas
    turned to spaces: on a string without commas the two steps cancel,
    so a pass whose rules change nothing returns its argument. *)
Theorem reannotate_normalize_round_trip (p : str) :
  normalize_loop (reannotate p) = re_sub_lit (lit ",") (lit " ") p /\
  (~ In ","%char p -> normalize_loop (reannotate p) = p).
Proof.
  split; [apply normalize_reannotate|].
  intros H. rewrite normalize_reannotate. apply commas_to_spaces_id, H.
Qed.

Lemma reannotate_normalize_round_trip_witness :
  normalize_loop (reannotate (lit "k0 aa -k0 aa")) = lit "k0 aa -k0 aa".
Proof.
  apply (reannotate_normalize_round_trip (lit "k0 aa -k0 aa")).
  vm_compute. intros H. repeat (destruct H as [H|H]; [discriminate|]). exact H.
Defined.

Section MoreDriverProperties.

Variable re_sub : str -> str -> str -> result str.

(** X14.  The rule engine stops at the first rule that raises: when the
    rules before it rewrite the phone string into [s1] and the rule
    raises on [s1], the call raises the same exception, whatever the
    rules after it. *)
Theorem phone2prono_first_error
        (phones s1 p r : str) (e : exn) (rules1 rules2 : list (str * str))
        (rule_in rule_out : list str) :
  combine rule_in rule_out = (rules1 ++ (p, r) :: rules2)%list ->
  fold_rules re_sub rules1 phones = Ok s1 ->
  re_sub p r s1 = Raise e ->
  phone2prono re_sub phones rule_in rule_out = Raise e.
Proof.
  intros Hc H1 He.
  rewrite phone2prono_is_fold by (rewrite Hc; destruct rules1; discriminate).
  rewrite Hc. unfold fold_rules in *.
  rewrite fold_left_app, H1. cbn [fold_left].
  unfold apply_rule at 2. cbn [bind fst snd]. rewrite He.
  apply fold_rules_raise.
Qed.

(** X15.  Only as many rules are applied as both lists have entries: the
    patterns or replacements beyond the length of the shorter list are
    ignored. *)
Theorem phone2prono_truncates (phones : str) (rule_in rule_out : list str) :
  let n := Nat.min (List.length rule_in) (List.length rule_out) in
  phone2prono re_sub phones rule_in rule_out =
  phone2prono re_sub phones (firstn n rule_in) (firstn n rule_out).
Proof.
  intros n. unfold phone2prono.
  replace (combine (firstn n rule_in) (firstn n rule_out))
    with (combine rule_in rule_out); [reflexivity|].
  rewrite <- combine_firstn.
  unfold n. rewrite <- (length_combine rule_in rule_out).
  symmetry. apply firstn_all.
Qed.

Variables rule_in rule_out : list str.

Lemma while_raise_from_pass (fuel : nat) :
  forall prev e,
    graph2prono_while re_sub rule_in rule_out fuel prev = Some (Raise e) ->
    exists p, loop_pass re_sub rule_in rule_out p = Raise e.
Proof.
  induction fuel as [|fuel IH]; intros prev e H; [discriminate|].
  cbn [graph2prono_while] in H.
  destruct (loop_pass re_sub rule_in rule_out prev) as [new|e'] eqn:Hp.
  - destruct (str_eqb _ _); [discriminate|]. apply (IH _ _ H).
  - injection H as ->. exists prev. exact Hp.
Qed.

(** X16.  On a [str] argument, given by its code points, an exception
    that comes out of the driver is one that the rule engine has raised on
    some string: on such an argument neither the phone stream builder nor
    the boundary annotation raises. *)
Theorem graph2prono_raises_from_rules (fuel : nat) (graphs : list Z) (e : exn) :
  graph2prono re_sub rule_in rule_out fuel graphs = Some (Raise e) ->
  exists s, phone2prono re_sub s rule_in rule_out = Raise e.
Proof.
  unfold graph2prono, first_pass.
  destruct (add_phone_boundary_of_graph2phone graphs) as (phones & bd & E1 & E2).
  rewrite E1. cbn [bind]. rewrite E2. cbn [bind].
  destruct (phone2prono re_sub bd rule_in rule_out) as [prono|e'] eqn:E3; cbn [bind].
  - intros H. apply while_raise_from_pass in H. destruct H as (p & H).
    unfold loop_pass in H.
    destruct (phone2prono re_sub (reannotate p) rule_in rule_out) as [x|e''] eqn:E4;
      [discriminate|].
    cbn [bind] in H. injection H as ->. eauto.
  - intros H. injection H as ->. eauto.
Qed.

(** X17.  The string that the entry point returns holds no comma: the
    commas of the annotation are all turned to spaces. *)
Theorem run_g2p_output_has_no_comma (fuel : nat) (graph : list Z) (p : str) :
  run_g2p re_sub fuel graph (rule_in, rule_out) = Some (Ok p) ->
  ~ In ","%char p.
Proof.
  unfold run_g2p. intros H. apply graph2prono_returns_last in H.
  destruct H as (prev & new & Hp & _ & ->).
  unfold loop_pass in Hp.
  destruct (phone2prono re_sub (reannotate prev) rule_in rule_out) as [x|e];
    [|discriminate].
  cbn [bind] in Hp. injection Hp as <-.
  intros Hin. apply strip_boundaries_subset in Hin.
  exact (normalize_loop_no_comma _ Hin).
Qed.

Lemma normalize_first_no_comma (s : str) : ~ In ","%char (normalize_first s).
Proof.
  unfold normalize_first, re_sub_dash_plus. intros H.
  apply dash_plus_subsequence in H.
  change (lit "#") with ["#"%char] in H. rewrite re_sub_lit_char in H.
  apply in_flat_map in H. destruct H as (y & Hy & H).
  destruct (Ascii.eqb "#" y).
  - destruct H as [H|[]]. discriminate.
  - destruct H as [H|[]]. subst y. apply space_eol_subset in Hy.
    exact (commas_to_spaces_no_comma _ Hy).
Qed.

(** X18.  When no rule changes the annotated phone string nor its
    normalized form, the driver returns at the first iteration of its
    loop, and the result is the annotated phone string, normalized, with
    every ['-'] deleted. *)
Theorem graph2prono_inert_rules (fuel : nat) (graphs : list Z) (phones bd : str) :
  graph2phone graphs = Ok phones ->
  add_phone_boundary phones = Ok bd ->
  phone2prono re_sub bd rule_in rule_out = Ok bd ->
  phone2prono re_sub (reannotate (normalize_first bd)) rule_in rule_out
    = Ok (reannotate (normalize_first bd)) ->
  graph2prono re_sub rule_in rule_out (S fuel) graphs
    = Some (Ok (strip_boundaries (normalize_first bd))).
Proof.
  intros E1 E2 E3 E4. unfold graph2prono, first_pass.
  rewrite E1. cbn [bind]. rewrite E2. cbn [bind]. rewrite E3. cbn [bind].
  apply while_step_identical.
  - unfold loop_pass. rewrite E4. cbn [bind]. f_equal.
    rewrite normalize_reannotate. apply commas_to_spaces_id, normalize_first_no_comma.
  - apply str_eqb_eq. reflexivity.
Qed.

End MoreDriverProperties.

(** X19.  With an empty rule table the driver raises [UnboundLocalError]
    on every [str] argument, given by its code points, before its loop is
    entered. *)
Theorem graph2prono_empty_table (re_sub : str -> str -> str -> result str)
        (fuel : nat) (graphs : list Z) :
  graph2prono re_sub [] [] fuel graphs = Some (Raise UnboundLocalError).
Proof.
  unfold graph2prono, first_pass.
  destruct (add_phone_boundary_of_graph2phone graphs) as (phones & bd & E1 & E2).
  rewrite E1. cbn [bind]. rewrite E2. reflexivity.
Qed.

Lemma phone2prono_first_error_witness :
  phone2prono re_sub_plain_or_error (lit "k0,aa,")
    [lit "aa"; lit "("; lit "k0"] [lit "vv"; lit "x"; lit "kk"] = Raise ReError.
Proof.
  apply (phone2prono_first_error re_sub_plain_or_error
           (lit "k0,aa,") (lit "k0,vv,") (lit "(") (lit "x") ReError
           [(lit "aa", lit "vv")] [(lit "k0", lit "kk")]);
    vm_compute; reflexivity.
Defined.

Lemma graph2prono_raises_from_rules_witness :
  exists s, phone2prono re_sub_plain_or_error s [lit "("] [lit "x"] = Raise ReError.
Proof.
  apply (graph2prono_raises_from_rules re_sub_plain_or_error
           [lit "("] [lit "x"] 1 [44032] ReError).
  vm_compute. reflexivity.
Defined.

Lemma run_g2p_output_has_no_comma_witness :
  ~ In ","%char (lit "k0 aa k0 aa").
Proof.
  apply (run_g2p_output_has_no_comma re_sub_plain [lit "zz"] [lit "zz"]
           1 [44032; 44032]).
  vm_compute. reflexivity.
Defined.

Lemma graph2prono_inert_rules_witness :
  graph2prono re_sub_plain [lit "zz"] [lit "zz"] 1 [44032; 32; 44032]
  = Some (Ok (strip_boundaries (normalize_first (lit "k0,aa,#k0,aa,")))).
Proof.
  apply (graph2prono_inert_rules re_sub_plain [lit "zz"] [lit "zz"] 0
           [44032; 32; 44032] (lit "k0aa#k0aa") (lit "k0,aa,#k0,aa,"));
    vm_compute; reflexivity.
Defined.

(** * Properties of [read_rulebook] *)

Lemma split_not_nil (sep : ascii) (s : str) : str_split sep s <> [].
Proof.
  induction s as [|c s IH]; [discriminate|].
  cbn [str_split]. destruct (Ascii.eqb c sep); [discriminate|].
  destruct (str_split sep s); [contradiction | discriminate].
Qed.

Lemma split_app (sep : ascii) (f rest : str) :
  forallb (fun c => negb (Ascii.eqb c sep)) f = true ->
  str_split sep (f ++ sep :: rest) = f :: str_split sep rest.
Proof.
  induction f as [|c f IH]; intros H.
  - cbn [app str_split]. rewrite Ascii.eqb_refl. reflexivity.
  - cbn [forallb] in H. apply andb_true_iff in H. destruct H as [Hc Hf].
    apply negb_true_iff in Hc.
    cbn [app str_split]. rewrite Hc, (IH Hf). reflexivity.
Qed.

Lemma split_whole (sep : ascii) (f : str) :
  forallb (fun c => negb (Ascii.eqb c sep)) f = true -> str_split sep f = [f].
Proof.
  induction f as [|c f IH]; intros H; [reflexivity|].
  cbn [forallb] in H. apply andb_true_iff in H. destruct H as [Hc Hf].
  apply negb_true_iff in Hc.
  cbn [str_split]. rewrite Hc, (IH Hf). reflexivity.
Qed.

Lemma drop_while_head (f : ascii -> bool) (c : ascii) (s : str) :
  f c = false -> drop_while f (c :: s) = c :: s.
Proof. intros H. cbn [drop_while]. rewrite H. reflexivity. Qed.

(** [str_strip] removes the white space after a string that starts and ends
    with other characters. *)
Lemma strip_tail (s ws : str) :
  match s with [] => false | c :: _ => negb (is_space c) end = true ->
  is_space (last s " "%char) = false ->
  forallb is_space ws = true ->
  str_strip (s ++ ws) = s.
Proof.
  intros Hh Hl Hws. unfold str_strip.
  destruct s as [|c s]; [discriminate|]. apply negb_true_iff in Hh.
  cbn [app]. rewrite (drop_while_head _ _ _ Hh).
  change (c :: s ++ ws)%list with ((c :: s) ++ ws)%list.
  rewrite rev_app_distr.
  assert (D : forall pre l, forallb is_space pre = true ->
                drop_while is_space (pre ++ l) = drop_while is_space l).
  { induction pre as [|x pre IH]; intros l H; [reflexivity|].
    cbn [forallb] in H. apply andb_true_iff in H. destruct H as [Hx Hp].
    cbn [app drop_while]. rewrite Hx. apply IH, Hp. }
  rewrite D.
  - destruct (rev (c :: s)) as [|x r] eqn:E.
    + apply (f_equal (@rev ascii)) in E. rewrite rev_involutive in E. discriminate.
    + assert (Ex : x = last (c :: s) " "%char).
      { apply rev_cons_inv in E. rewrite E. symmetry. apply last_last. }
      rewrite drop_while_head by (rewrite Ex; exact Hl).
      rewrite <- E. apply rev_involutive.
  - apply forallb_forall. intros x Hx. apply in_rev in Hx.
    rewrite forallb_forall in Hws. apply Hws, Hx.
Qed.

Lemma strip_head (line : str) :
  match str_strip line with [] => True | c :: _ => is_space c = false end.
Proof.
  unfold str_strip.
  destruct (drop_while_spec is_space line) as (pre & _ & _ & Hd).
  destruct (drop_while is_space line) as [|c t] eqn:D; [exact I|].
  destruct (drop_while_spec is_space (rev (c :: t))) as (pre' & E' & _ & _).
  remember (drop_while is_space (rev (c :: t))) as d eqn:Ed. clear Ed.
  apply (f_equal (@rev ascii)) in E'. rewrite rev_involutive, rev_app_distr in E'.
  destruct (rev d) as [|x r]; [exact I|].
  cbn [app] in E'. injection E' as <- _. exact Hd.
Qed.

Lemma field_ok_parts (f : str) :
  field_ok f = true ->
  match f with [] => false | c :: _ => negb (is_space c) end = true /\
  is_space (last f " "%char) = false /\
  forallb (fun c => negb (Ascii.eqb c tab)) f = true.
Proof.
  unfold field_ok. intros H.
  apply andb_true_iff in H. destruct H as [H _].
  apply andb_true_iff in H. destruct H as [H H3].
  apply andb_true_iff in H. destruct H as [H1 H2].
  apply negb_true_iff in H2. auto.
Qed.

Lemma last_app_cons (a : str) (x : ascii) (b : str) (d : ascii) :
  last (a ++ x :: b) d = last (x :: b) d.
Proof.
  induction a as [|c a IH]; [reflexivity|].
  rewrite <- IH. cbn [app].
  destruct (a ++ x :: b)%list eqn:E; [destruct a; discriminate | reflexivity].
Qed.

Lemma read_rule_line_rule (p r ws : str) (rule_in rule_out : list str) :
  rule_ok (p, r) = true ->
  forallb is_space ws = true ->
  read_rule_line (p ++ [tab] ++ r ++ ws) (rule_in, rule_out)
  = Ok (rule_in ++ [p], rule_out ++ [r])%list.
Proof.
  unfold rule_ok. cbn [fst snd]. intros H Hws.
  apply andb_true_iff in H. destruct H as [H Hc].
  apply andb_true_iff in H. destruct H as [Hp Hr].
  apply field_ok_parts in Hp, Hr.
  destruct Hp as (Hp1 & Hp2 & Hp3). destruct Hr as (Hr1 & Hr2 & Hr3).
  unfold read_rule_line.
  replace (p ++ [tab] ++ r ++ ws)%list with ((p ++ tab :: r) ++ ws)%list
    by (rewrite <- app_assoc; reflexivity).
  rewrite strip_tail; [| | |exact Hws].
  - destruct p as [|c p']; [discriminate|].
    cbn [app]. cbn [prefixb lit list_ascii_of_string] in Hc.
    rewrite andb_true_r in Hc. rewrite Ascii.eqb_sym in Hc. rewrite Hc.
    change (c :: p' ++ tab :: r)%list with ((c :: p') ++ tab :: r)%list.
    rewrite (split_app tab _ _ Hp3), (split_whole tab _ Hr3).
    cbn [py_index List.length Z.of_nat Z.ltb Z.compare Z.leb orb nth_error Z.to_nat bind].
    cbn. destruct r; [discriminate | reflexivity].
  - destruct p; [discriminate | exact Hp1].
  - destruct r as [|x r']; [discriminate|]. rewrite last_app_cons.
    change (tab :: x :: r') with ([tab] ++ x :: r')%list. rewrite last_app_cons.
    exact Hr2.
Qed.

Lemma read_rulebook_from_rules (table : list (str * str)) :
  forall rule_in rule_out,
    forallb rule_ok table = true ->
    read_rulebook_from (map (fun rule => rule_line (fst rule) (snd rule)) table)
      (rule_in, rule_out)
    = Ok (rule_in ++ map fst table, rule_out ++ map snd table)%list.
Proof.
  induction table as [|[p r] table IH]; intros rule_in rule_out H.
  - cbn. rewrite !app_nil_r. reflexivity.
  - cbn [forallb] in H. apply andb_true_iff in H. destruct H as [Hr Ht].
    cbn [map read_rulebook_from fst snd]. unfold rule_line.
    rewrite (read_rule_line_rule p r ["010"%char] _ _ Hr eq_refl).
    cbn [bind]. rewrite (IH _ _ Ht). rewrite <- !app_assoc. reflexivity.
Qed.

(** X20.  A rule table written line by line, a pattern, a tab, a
    replacement and a newline on each line, is read back as it is, in
    order, when its fields are not empty, have no white space at their
    ends, no tab and no line break inside, and no pattern starts with
    ['#']. *)
Theorem read_rulebook_round_trip (table : list (str * str)) :
  forallb rule_ok table = true ->
  read_rulebook (map (fun rule => rule_line (fst rule) (snd rule)) table)
  = Ok (map fst table, map snd table).
Proof.
  intros H. unfold read_rulebook. apply (read_rulebook_from_rules table [] [] H).
Qed.

Lemma read_rulebook_round_trip_witness :
  read_rulebook [rule_line (lit "aa,k0") (lit "xx,yy"); rule_line (lit "-k0") (lit "k0")]
  = Ok ([lit "aa,k0"; lit "-k0"], [lit "xx,yy"; lit "k0"]).
Proof.
  apply (read_rulebook_round_trip [(lit "aa,k0", lit "xx,yy"); (lit "-k0", lit "k0")]).
  reflexivity.
Defined.

Lemma read_rulebook_from_app (l1 l2 : list str) :
  forall rules,
    read_rulebook_from (l1 ++ l2) rules =
    (rules' <- read_rulebook_from l1 rules ;; read_rulebook_from l2 rules').
Proof.
  induction l1 as [|line l1 IH]; intros rules; [reflexivity|].
  cbn [app read_rulebook_from].
  destruct (read_rule_line line rules); cbn [bind]; [apply IH | reflexivity].
Qed.

Lemma read_rule_line_skipped (line : str) (rules : list str * list str) :
  skipped_line line = true -> read_rule_line line rules = Ok rules.
Proof.
  unfold skipped_line, read_rule_line. destruct rules as [rule_in rule_out].
  destruct (str_strip line) as [|c t]; [reflexivity|].
  intros H. rewrite H. reflexivity.
Qed.

(** X21.  Blank lines and lines whose first character other than white
    space is ['#'] change nothing: the rule book read with such a line is
    the rule book read without it. *)
Theorem read_rulebook_skips_comments (l1 l2 : list str) (line : str) :
  skipped_line line = true ->
  read_rulebook (l1 ++ line :: l2) = read_rulebook (l1 ++ l2).
Proof.
  intros H. unfold read_rulebook.
  rewrite !read_rulebook_from_app.
  destruct (read_rulebook_from l1 ([], [])) as [rules|e]; [|reflexivity].
  cbn [bind read_rulebook_from]. rewrite (read_rule_line_skipped _ _ H). reflexivity.
Qed.

Lemma read_rulebook_skips_comments_witness :
  read_rulebook ([rule_line (lit "aa") (lit "vv")] ++ lit "  # rules" :: [rule_line (lit "k0") (lit "kk")])
  = read_rulebook ([rule_line (lit "aa") (lit "vv")] ++ [rule_line (lit "k0") (lit "kk")]).
Proof.
  apply read_rulebook_skips_comments. reflexivity.
Defined.

Lemma split_first_no_sep (sep : ascii) (s : str) :
  match str_split sep s with
  | f :: _ => ~ In sep f
  | [] => True
  end.
Proof.
  induction s as [|c s IH]; [cbn; tauto|].
  cbn [str_split]. destruct (Ascii.eqb c sep) eqn:E; [cbn; tauto|].
  destruct (str_split sep s) as [|f fs]; cbn.
  - intros [H|[]]. subst c. rewrite Ascii.eqb_refl in E. discriminate.
  - intros [H|H]; [|contradiction].
    subst c. rewrite Ascii.eqb_refl in E. discriminate.
Qed.

Lemma read_rule_line_inv (line : str) (ri ro ri' ro' : list str) :
  read_rule_line line (ri, ro) = Ok (ri', ro') ->
  (ri' = ri /\ ro' = ro) \/
  (exists p r, ri' = (ri ++ [p])%list /\ ro' = (ro ++ [r])%list /\ pattern_ok p).
Proof.
  unfold read_rule_line.
  pose proof (strip_head line) as Hh.
  destruct (str_strip line) as [|c t] eqn:Es.
  - intros H. injection H as <- <-. left. auto.
  - destruct (Ascii.eqb c "#") eqn:Ec; cbn [negb].
    + intros H. injection H as <- <-. left. auto.
    + pose proof (split_first_no_sep tab (c :: t)) as Hf.
      assert (Ect : Ascii.eqb c tab = false).
      { destruct (Ascii.eqb c tab) eqn:E; [|reflexivity].
        apply Ascii.eqb_eq in E. subst c. discriminate. }
      cbv zeta. cbn [str_split] in Hf |- *. rewrite Ect in Hf |- *.
      pose proof (split_not_nil tab t) as Hn.
      destruct (str_split tab t) as [|f fs]; [contradiction|].
      change (py_index ((c :: f) :: fs) 0) with (Ok (c :: f) : result str).
      cbn [bind].
      destruct (py_index _ 1) as [r|e]; cbn [bind]; [|intros H; discriminate H].
      assert (Hp : pattern_ok (c :: f)).
      { exists c, f. repeat split; auto.
        intros ->. discriminate. }
      intros H. right. destruct r; injection H as <- <-; eauto.
Qed.

Lemma read_rulebook_from_inv (lines : list str) :
  forall ri ro ri' ro',
    read_rulebook_from lines (ri, ro) = Ok (ri', ro') ->
    List.length ri = List.length ro -> Forall pattern_ok ri ->
    List.length ri' = List.length ro' /\ Forall pattern_ok ri'.
Proof.
  induction lines as [|line lines IH]; intros ri ro ri' ro' H Hl Hf.
  - injection H as <- <-. auto.
  - cbn [read_rulebook_from] in H.
    destruct (read_rule_line line (ri, ro)) as [[ri1 ro1]|e] eqn:E; [|discriminate].
    cbn [bind] in H.
    apply read_rule_line_inv in E.
    destruct E as [[-> ->]|(p & r & -> & -> & Hp)].
    + apply (IH _ _ _ _ H Hl Hf).
    + apply (IH _ _ _ _ H).
      * rewrite !length_app. cbn. lia.
      * apply Forall_app. split; [exact Hf | constructor; [exact Hp | constructor]].
Qed.

(** X22.  A rule book that has been read has as many replacements as
    patterns, so that the zip of the rule engine loses no rule, and each
    of its patterns is not empty, starts with a character that is neither
    white space nor ['#'], and holds no tab. *)
Theorem read_rulebook_well_formed (lines : list str) (rule_in rule_out : list str) :
  read_rulebook lines = Ok (rule_in, rule_out) ->
  List.length rule_in = List.length rule_out /\
  List.length (combine rule_in rule_out) = List.length rule_in /\
  Forall pattern_ok rule_in.
Proof.
  intros H. apply read_rulebook_from_inv in H; [|reflexivity|constructor].
  destruct H as [Hl Hf]. repeat split; auto.
  rewrite length_combine. lia.
Qed.

Lemma read_rulebook_well_formed_witness :
  List.length [lit "aa,k0"] = List.length [lit "xx,yy"] /\
  List.length (combine [lit "aa,k0"] [lit "xx,yy"]) = List.length [lit "aa,k0"] /\
  Forall pattern_ok [lit "aa,k0"].
Proof.
  apply (read_rulebook_well_formed [rule_line (lit "aa,k0") (lit "xx,yy")]).
  reflexivity.
Defined.







(** * The characters of the phone stream *)

Lemma re_sub_lit_subset (x y : ascii) (pat repl : str) (n : nat) :
  forall s, (List.length s <= n)%nat ->
    In x (re_sub_lit (y :: pat) repl s) -> In x s \/ In x repl.
Proof.
  induction n as [|n IH]; intros s Hlen H.
  - destruct s; [contradiction | cbn in Hlen; lia].
  - destruct s as [|c r]; [contradiction|].
    rewrite re_sub_lit_cons in H.
    destruct (prefixb (y :: pat) (c :: r)) eqn:P.
    + apply in_app_or in H. destruct H as [H|H]; [right; exact H|].
      apply prefixb_skipn in P.
      change (skipn (List.length (y :: pat)) (c :: r))
        with (skipn (List.length pat) r) in P.
      remember (skipn (List.length pat) r) as rest eqn:Erest. clear Erest.
      apply IH in H.
      * destruct H as [H|H]; [left | right; exact H].
        rewrite P. apply in_or_app. right. exact H.
      * apply (f_equal (@List.length ascii)) in P.
        rewrite length_app in P. cbn in P, Hlen. lia.
    + destruct H as [H|H]; [left; left; exact H|].
      apply IH in H; [|cbn in Hlen; lia].
      destruct H as [H|H]; [left; right; exact H | right; exact H].
Qed.

Lemma re_sub_bol_subset (x : ascii) (pat s : str) :
  In x (re_sub_bol pat s) -> In x s.
Proof.
  unfold re_sub_bol. destruct (prefixb pat s) eqn:P; [|auto].
  apply prefixb_skipn in P. intros H. rewrite P. apply in_or_app. right. exact H.
Qed.

Lemma re_sub_oh_end_subset (x : ascii) (n : nat) :
  forall s, (List.length s <= n)%nat ->
    In x (re_sub_oh_end s) -> In x s \/ In x (lit "ng").
Proof.
  induction n as [|n IH]; intros s Hlen H.
  - destruct s; [contradiction | cbn in Hlen; lia].
  - destruct s as [|a r]; [contradiction|].
    destruct r as [|b t]; [left; exact H|].
    cbn [re_sub_oh_end] in H.
    assert (Hdefault : In x (a :: re_sub_oh_end (b :: t)) ->
                       In x (a :: b :: t) \/ In x (lit "ng")).
    { intros [E|Hin]; [left; left; exact E|].
      apply IH in Hin; [|cbn in Hlen |- *; lia].
      destruct Hin as [Hin|Hin]; [left; right; exact Hin | right; exact Hin]. }
    destruct (Ascii.eqb a "o" && Ascii.eqb b "h"); [|apply Hdefault, H].
    destruct t as [|c t']; [right; exact H|].
    destruct (Ascii.eqb c "#" || Ascii.eqb c " ").
    + apply in_app_or in H. destruct H as [H|H]; [right; exact H|].
      apply IH in H; [|cbn in Hlen; lia].
      destruct H as [H|H]; [left; right; right; right; exact H | right; exact H].
    + destruct (Ascii.eqb c "010" && match t' with [] => true | _ :: _ => false end);
        [|apply Hdefault, H].
      apply in_app_or in H. destruct H as [H|[H|[]]]; [right; exact H|].
      left. right. right. left. exact H.
Qed.

Lemma sub_nonword_dash_subset (x : ascii) (s : str) :
  forall inrun, In x (sub_nonword_dash_from inrun s) -> In x s.
Proof.
  induction s as [|c r IH]; intros inrun H; [exact H|].
  cbn [sub_nonword_dash_from] in H.
  destruct (is_word c).
  - destruct H as [H|H]; [left; exact H | right; apply (IH _ H)].
  - destruct (inrun && Ascii.eqb c "-" && negb (dash_in_run r)).
    + right. apply (IH _ H).
    + destruct H as [H|H]; [left; exact H | right; apply (IH _ H)].
Qed.

Lemma cleanup_subset (x : ascii) (phones : str) :
  In x (graph2phone_cleanup phones) -> In x phones \/ In x (lit "ng-").
Proof.
  unfold graph2phone_cleanup, re_sub_nonword_dash. intros H.
  apply re_sub_bol_subset in H.
  destruct (sub_nonword_eol_prefix
              (sub_nonword_dash_from false
                 (re_sub_oh_end
                    (re_sub_lit (lit "oh-") (lit "ng-")
                       (re_sub_lit (lit "-oh") [] (re_sub_bol (lit "oh") phones))))))
    as [t Et].
  assert (H1 : In x (sub_nonword_dash_from false
                 (re_sub_oh_end
                    (re_sub_lit (lit "oh-") (lit "ng-")
                       (re_sub_lit (lit "-oh") [] (re_sub_bol (lit "oh") phones)))))).
  { rewrite Et. apply in_or_app. left. exact H. }
  clear H Et. apply sub_nonword_dash_subset in H1.
  apply (re_sub_oh_end_subset _ _ _ (le_n _)) in H1.
  destruct H1 as [H1|H1]; [|right; cbn in *; tauto].
  change (lit "oh-") with ("o"%char :: lit "h-") in H1.
  apply (re_sub_lit_subset _ _ _ _ _ _ (le_n _)) in H1.
  destruct H1 as [H1|H1]; [|right; exact H1].
  change (lit "-oh") with ("-"%char :: lit "oh") in H1.
  apply (re_sub_lit_subset _ _ _ _ _ _ (le_n _)) in H1.
  destruct H1 as [H1|[]].
  left. apply (re_sub_bol_subset _ _ _ H1).
Qed.

Lemma tables_phone_chars :
  forallb (forallb phone_char) ONS && forallb (forallb phone_char) NUC
  && forallb (forallb phone_char) COD = true.
Proof. vm_compute. reflexivity. Qed.

Lemma table_code_chars (o n d : str) :
  In o ONS -> In n NUC -> In d COD ->
  forallb phone_char (lit "-" ++ o ++ n ++ d) = true.
Proof.
  intros Ho Hn Hd. pose proof tables_phone_chars as T.
  apply andb_true_iff in T. destruct T as [T T3].
  apply andb_true_iff in T. destruct T as [T1 T2].
  rewrite forallb_forall in T1, T2, T3.
  rewrite !forallb_app, (T1 o Ho), (T2 n Hn), (T3 d Hd). reflexivity.
Qed.

Lemma walk_phone_chars (integers : list Z) :
  forall phones p,
    forallb phone_char phones = true ->
    graph2phone_walk (combine integers (check_char_type integers)) phones = Ok p ->
    forallb phone_char p = true.
Proof.
  induction integers as [|c l IH]; intros phones p Hp H.
  - injection H as <-. exact Hp.
  - change (graph2phone_walk (combine (c :: l) (check_char_type (c :: l))) phones)
      with (phones1 <- emit phones c (char_type c) ;;
            graph2phone_walk (combine l (check_char_type l))
              (re_sub_lit (lit "-oh") (lit "-") phones1)) in H.
    destruct (emit phones c (char_type c)) as [phones1|e] eqn:E; [|discriminate].
    cbn [bind] in H. apply (IH (re_sub_lit (lit "-oh") (lit "-") phones1) p); [|exact H].
    apply forallb_forall. intros x Hx.
    change (lit "-oh") with ("-"%char :: lit "oh") in Hx.
    apply (re_sub_lit_subset _ _ _ _ _ _ (le_n _)) in Hx.
    destruct Hx as [Hx|[<-|[]]]; [|reflexivity].
    assert (H1 : forallb phone_char phones1 = true).
    { destruct (emit_cases _ _ _ E) as [->|[->|(o & n & d & Ho & Hn & Hd & ->)]].
      - exact Hp.
      - rewrite forallb_app, Hp. reflexivity.
      - rewrite forallb_app, Hp. apply table_code_chars; assumption. }
    rewrite forallb_forall in H1. apply H1, Hx.
Qed.

(** X24.  Every character of the phone string that [graph2phone] returns
    is one of [0 a b c e f g h i k l m n o p q r s t u v w x y], the
    characters of the codes of the tables and of [ng], or one of the
    markers ['-'] and ['#']: the string holds no space, no comma and no
    newline. *)
Theorem graph2phone_characters (integers : list Z) (phones : str) :
  graph2phone integers = Ok phones ->
  forallb phone_char phones = true /\
  ~ In " "%char phones /\ ~ In ","%char phones /\ ~ In "010"%char phones.
Proof.
  unfold graph2phone. intros H.
  destruct (graph2phone_walk (combine integers (check_char_type integers)) [])
    as [p|e] eqn:E; [|discriminate].
  cbn [bind] in H. injection H as <-.
  pose proof (walk_phone_chars integers [] p eq_refl E) as Hp.
  assert (A : forallb phone_char (graph2phone_cleanup p) = true).
  { apply forallb_forall. intros x Hx. apply cleanup_subset in Hx.
    destruct Hx as [Hx|Hx].
    - rewrite forallb_forall in Hp. apply Hp, Hx.
    - cbn in Hx. destruct Hx as [<-|[<-|[<-|[]]]]; reflexivity. }
  split; [exact A|].
  rewrite forallb_forall in A.
  repeat split; intros Hin; specialize (A _ Hin); discriminate.
Qed.

Lemma graph2phone_characters_witness :
  forallb phone_char (lit "k0aa#k0aa") = true /\
  ~ In " "%char (lit "k0aa#k0aa") /\ ~ In ","%char (lit "k0aa#k0aa") /\
  ~ In "010"%char (lit "k0aa#k0aa").
Proof.
  apply (graph2phone_characters [44032; 32; 44032]). reflexivity.
Defined.

(** * The driver as a whole *)

Lemma reannotate_map (p : str) :
  reannotate p =
  (map (fun c => if Ascii.eqb c " " then ","%char else c) p ++ [","%char])%list.
Proof.
  unfold reannotate. change (lit " ") with [" "%char].
  rewrite re_sub_lit_char, flat_map_app. f_equal.
  induction p as [|x p IH]; [reflexivity|].
  cbn [flat_map map]. rewrite IH, (Ascii.eqb_sym x " ").
  destruct (Ascii.eqb " " x); reflexivity.
Qed.

Lemma delete_dash_id (s : str) :
  ~ In "-"%char s -> filter (fun x => negb (Ascii.eqb "-" x)) s = s.
Proof.
  intros H. rewrite <- strip_boundaries_spec. apply strip_boundaries_id, H.
Qed.

Section ConvergenceDriver.

Variable re_sub : str -> str -> str -> result str.
Variables rule_in rule_out : list str.

Abbreviation pass := (loop_pass re_sub rule_in rule_out).
Abbreviation passes_ := (passes re_sub rule_in rule_out).
Abbreviation delete_dash := (filter (fun x => negb (Ascii.eqb "-"%char x))).

Lemma passes_snoc (k : nat) :
  forall prono, passes_ (S k) prono = (p <- passes_ k prono ;; pass p).
Proof.
  induction k as [|k IH]; intros prono.
  - cbn [passes bind]. destruct (pass prono); reflexivity.
  - change (passes_ (S (S k)) prono)
      with (q <- pass prono ;; passes_ (S k) q).
    change (passes_ (S k) prono) with (q <- pass prono ;; passes_ k q).
    destruct (pass prono) as [q|e]; cbn [bind]; [apply IH | reflexivity].
Qed.

(** The driver returns [out] exactly when the first pass returns and
    some iteration of the loop finds its argument and its result equal
    once every ['-'] is deleted. *)
Lemma graph2prono_returns (fuel : nat) (graphs : list Z) (out : str) :
  graph2prono re_sub rule_in rule_out fuel graphs = Some (Ok out) <->
  exists prono0 k p q,
    first_pass re_sub rule_in rule_out graphs = Ok prono0 /\
    (k < fuel)%nat /\
    passes_ k prono0 = Ok p /\
    pass p = Ok q /\
    delete_dash p = delete_dash q /\
    out = delete_dash q /\
    forall j pj qj,
      (j < k)%nat -> passes_ j prono0 = Ok pj -> pass pj = Ok qj ->
      delete_dash pj <> delete_dash qj.
Proof.
  unfold graph2prono.
  destruct (first_pass re_sub rule_in rule_out graphs) as [prono0|e] eqn:E0.
  - rewrite (proj1 (graph2prono_while_returns_iff re_sub rule_in rule_out
                      fuel prono0 out)).
    split.
    + intros (k & p & q & Hk & Hp & Hq & He & -> & Hmin).
      exists prono0, k, p, q. rewrite <- !strip_boundaries_spec.
      repeat split; auto.
      intros j pj qj Hj Hpj Hqj. rewrite <- !strip_boundaries_spec.
      apply (Hmin j pj qj Hj Hpj Hqj).
    + intros (prono0' & k & p & q & E & Hk & Hp & Hq & He & -> & Hmin).
      injection E as <-.
      exists k, p, q. rewrite !strip_boundaries_spec.
      repeat split; auto.
      intros j pj qj Hj Hpj Hqj. rewrite !strip_boundaries_spec.
      apply (Hmin j pj qj Hj Hpj Hqj).
  - split; [discriminate|].
    intros (prono0' & k & p & q & E & _). discriminate.
Qed.

(** C1.  The driver [graph2prono] returns [out] within [fuel] iterations
    of its loop exactly when its first pass returns a string [prono0] and
    there is an iteration [k], below [fuel], at which the result [p] of
    the [k] passes before and the result [q] of the pass on [p] are equal
    once every ['-'] is deleted from both, no earlier iteration being
    such; [out] is then [q] with every ['-'] deleted.  While the two
    differ, the loop goes on: the next iterate is the pass on the newer
    result, and a pass is a full call of the rule engine on its argument
    with every space turned to a comma and a comma appended, followed by
    the normalization of the loop. *)
Theorem graph2prono_returns_iff (fuel : nat) (graphs : list Z) (out : str) :
  (graph2prono re_sub rule_in rule_out fuel graphs = Some (Ok out) <->
   exists prono0 k p q,
     first_pass re_sub rule_in rule_out graphs = Ok prono0 /\
     (k < fuel)%nat /\
     passes_ k prono0 = Ok p /\
     pass p = Ok q /\
     delete_dash p = delete_dash q /\
     out = delete_dash q /\
     forall j pj qj,
       (j < k)%nat -> passes_ j prono0 = Ok pj -> pass pj = Ok qj ->
       delete_dash pj <> delete_dash qj) /\
  (forall k prono, passes_ 0 prono = Ok prono /\
                   passes_ (S k) prono = (p <- passes_ k prono ;; pass p)) /\
  (forall p,
     pass p =
     (r <- phone2prono re_sub
             (map (fun c => if Ascii.eqb c " " then ","%char else c) p ++ [","%char])
             rule_in rule_out ;;
      Ok (normalize_loop r))).
Proof.
  split; [apply graph2prono_returns|]. split.
  - intros k prono. split; [reflexivity | apply passes_snoc].
  - intros p. unfold loop_pass. rewrite reannotate_map. reflexivity.
Qed.

(** C2 (as the code has it).  When the driver returns [p], [p] is the
    result [q] of the last pass with every ['-'] deleted, where the last
    pass ran on the last iterate [prev] of the loop, and [prev] and [q]
    are equal once every ['-'] is deleted.  When [prev] holds no ['-'],
    one more pass on [p] returns [q], which is [p] up to the ['-']
    markers; it returns [p] itself when [q] holds no ['-'] either. *)
Theorem driver_output_one_more_pass (fuel : nat) (graphs : list Z) (p : str) :
  graph2prono re_sub rule_in rule_out fuel graphs = Some (Ok p) ->
  exists prono0 k prev q,
    first_pass re_sub rule_in rule_out graphs = Ok prono0 /\
    (k < fuel)%nat /\
    passes_ k prono0 = Ok prev /\
    pass prev = Ok q /\
    delete_dash prev = delete_dash q /\
    p = delete_dash q /\
    (~ In "-"%char prev ->
     pass p = Ok q /\ (~ In "-"%char q -> pass p = Ok p)).
Proof.
  intros H. apply graph2prono_returns in H.
  destruct H as (prono0 & k & prev & q & E0 & Hk & Hp & Hq & He & -> & _).
  exists prono0, k, prev, q. repeat split; auto.
  - rewrite <- He, (delete_dash_id prev H). exact Hq.
  - intros Hq'. rewrite <- He, (delete_dash_id prev H).
    rewrite (delete_dash_id prev H), (delete_dash_id q Hq') in He.
    rewrite Hq, He. reflexivity.
Qed.

End ConvergenceDriver.

(** "가 가" with the rules [yy,-k0] to [yy,k0] and [aa,-] to [yy,-].  The
    first pass changes nothing (the word marker is still ['#']) and gives
    [k0 aa -k0 aa]; the first pass of the loop writes [yy], so that the
    loop goes on; the second deletes the ['-'] only, and the driver
    returns. *)
Lemma graph2prono_returns_iff_witness :
  graph2prono re_sub_plain [lit "yy,-k0"; lit "aa,-"] [lit "yy,k0"; lit "yy,-"]
    2 [44032; 32; 44032]
  = Some (Ok (lit "k0 yy k0 aa")).
Proof.
  apply (proj1 (graph2prono_returns_iff re_sub_plain
                  [lit "yy,-k0"; lit "aa,-"] [lit "yy,k0"; lit "yy,-"]
                  2 [44032; 32; 44032] (lit "k0 yy k0 aa"))).
  exists (lit "k0 aa -k0 aa"), 1%nat, (lit "k0 yy -k0 aa"), (lit "k0 yy k0 aa").
  split; [vm_compute; reflexivity|].
  split; [lia|].
  split; [vm_compute; reflexivity|].
  split; [vm_compute; reflexivity|].
  split; [vm_compute; reflexivity|].
  split; [vm_compute; reflexivity|].
  intros j pj qj Hj Hpj Hqj.
  destruct j as [|j]; [|lia].
  cbn in Hpj. injection Hpj as <-.
  vm_compute in Hqj. injection Hqj as <-.
  vm_compute. discriminate.
Defined.

(** "가가" with the rule [-k0] to [k0]: the first pass deletes the
    boundary, the iterates of the loop hold no ['-'], and one more pass
    on the string returned gives it back. *)
Lemma driver_output_one_more_pass_witness :
  graph2prono re_sub_plain [lit "-k0"] [lit "k0"] 1 [44032; 44032]
    = Some (Ok (lit "k0 aa k0 aa")) /\
  loop_pass re_sub_plain [lit "-k0"] [lit "k0"] (lit "k0 aa k0 aa")
    = Ok (lit "k0 aa k0 aa").
Proof.
  assert (H : graph2prono re_sub_plain [lit "-k0"] [lit "k0"] 1 [44032; 44032]
              = Some (Ok (lit "k0 aa k0 aa"))) by (vm_compute; reflexivity).
  split; [exact H|].
  destruct (driver_output_one_more_pass re_sub_plain [lit "-k0"] [lit "k0"]
              1 [44032; 44032] (lit "k0 aa k0 aa") H)
    as (prono0 & k & prev & q & E0 & Hk & Hp & Hq & _ & _ & Hfix).
  assert (k = 0%nat) by lia. subst k.
  vm_compute in E0. injection E0 as <-.
  cbn in Hp. injection Hp as <-.
  vm_compute in Hq. injection Hq as <-.
  assert (N : ~ In "-"%char (lit "k0 aa k0 aa")).
  { vm_compute. intros N. repeat (destruct N as [N|N]; [discriminate|]). exact N. }
  apply (Hfix N), N.
Defined.
